(** * Forward modelling for tesseroids

    A shallow embedding of [harmonica/forward/tesseroid.py] and the
    properties its specification states about it.

    Numbers.  The Python code computes on 64-bit floats.  The embedding
    idealises them as exact rationals in canonical form ([Qc]): equality is
    Leibniz equality, the field operations are exact and every definition
    below can be evaluated.  Rounding, infinities and NaN are outside the
    model; division is the total division of [Qc].  The transcendental
    functions of NumPy, the SciPy minimiser and the helpers of sibling
    modules that are not part of this file's source ([distance_spherical],
    the point-mass kernels, [GRAVITATIONAL_CONST]) are fields of the class
    [Collaborators]: every theorem holds for all their implementations. *)

From Stdlib Require Import QArith Qcanon Qcabs Qround Lqa ZArith String.
From stdpp Require Import base list.

Set Default Proof Using "Type".

(** ** Numbers *)

Definition Qcfloor (x : Qc) : Z := Qfloor (this x).

(** Python's [x % m] on floats: the result has the sign of the divisor. *)
Definition pymod (x m : Qc) : Qc := (x - m * Qc_of_Z (Qcfloor (x / m)))%Qc.

(** Python comparisons, as booleans. *)
Definition ltb (x y : Qc) : bool := bool_decide (x < y)%Qc.
Definition gtb (x y : Qc) : bool := bool_decide (y < x)%Qc.

(** [range(n)] and [enumerate(xs)] *)
Definition range (n : Z) : list Z := seqZ 0 n.
Definition enumerate {A : Type} (xs : list A) : list (Z * A) :=
  zip (range (Z.of_nat (length xs))) xs.

(** ** Exceptions and the error monad *)

(** The six bounds of a tesseroid: [w, e, s, n, bottom, top]. *)
Record Tesseroid := Tess {
  west : Qc; east : Qc; south : Qc; north : Qc; bottom : Qc; top : Qc
}.

(** The check of [_check_tesseroids] that failed. *)
Inductive tesseroid_check :=
| LatitudeOutOfRange
| SouthGreaterThanNorth
| NegativeRadius
| BottomGreaterThanTop
| LongitudeOutOfRange
| WestGreaterThanEast
| MoreThanOneTurn.

Inductive exn :=
| FieldNotRecognized (field : string)
    (* ValueError("Gravitational field {} not recognized") *)
| InvalidTesseroids (check : tesseroid_check) (invalid : list Tesseroid)
    (* ValueError("Invalid tesseroid or tesseroids. ...") *)
| PointInsideTesseroid
    (* raised by _check_points_outside_tesseroids *)
| DensityMismatch (density_size n_tesseroids : nat)
    (* ValueError("Number of elements in density ... mismatch ...") *)
| StackOverflow
    (* OverflowError("Stack Overflow. Try to increase the stack size.") *)
| ExceededMaxDiscretizations
    (* OverflowError("Exceeded maximum discretizations. ...") *)
| BroadcastError
    (* ValueError of np.broadcast: shapes cannot be broadcast together *)
| IndexError
    (* an array index out of bounds *)
| TypeError
    (* calling None: neither a density nor a density function was given *)
| KeyError
    (* a dictionary has no such key *)
| FuelExhausted.
    (* not a Python exception: a [while] loop was cut by the model's bound *)

Inductive outcome (A : Type) :=
| Ok (a : A)
| Raise (e : exn).
Arguments Ok {A} a.
Arguments Raise {A} e.

#[global] Instance outcome_ret : MRet outcome := λ A a, Ok a.
#[global] Instance outcome_bind : MBind outcome := λ A B f m,
  match m with
  | Ok a => f a
  | Raise e => Raise e
  end.


(** [for x in xs: s = body(x, s)] with exceptions. *)
Fixpoint for_ {A S : Type} (xs : list A) (body : A → S → outcome S) (s : S)
  : outcome S :=
  match xs with
  | [] => Ok s
  | x :: xs' => s' ← body x s; for_ xs' body s'
  end.

(** ** Arrays

    A 2d-array of shape [(rows, 6)] is a list of rows.  An index [i] is
    valid when [-len <= i < len]; negative indices count from the end, as
    in Python, and anything else is an [IndexError]. *)

Definition py_index (len : nat) (i : Z) : option nat :=
  if bool_decide (0 ≤ i < Z.of_nat len)%Z then Some (Z.to_nat i)
  else if bool_decide (- Z.of_nat len ≤ i < 0)%Z
       then Some (Z.to_nat (Z.of_nat len + i))
  else None.

Definition getitem {A : Type} (a : list A) (i : Z) : outcome A :=
  match py_index (length a) i ≫= (a !!.) with
  | Some x => Ok x
  | None => Raise IndexError
  end.

Definition setitem {A : Type} (a : list A) (i : Z) (x : A) : outcome (list A) :=
  match py_index (length a) i with
  | Some k => Ok (<[k:=x]> a)
  | None => Raise IndexError
  end.

Definition array := list Tesseroid.

(** An n-dimensional array of numbers: its shape and its values in
    row-major order ([ravel]). *)
Record ndarray := NdArray { shape : list nat; ravel : list Qc }.

Definition point : Type := Qc * Qc * Qc.

(** ** Module constants *)

Definition STACK_SIZE : nat := 100.
Definition MAX_DISCRETIZATIONS : nat := Z.to_nat 100000.
Definition GLQ_DEGREES : Z * Z * Z := (2, 2, 2)%Z.
Definition DELTA_RATIO : Qc := Q2Qc 0.1.

(** [DISTANCE_SIZE_RATII]: a dictionary with two keys. *)
Definition DISTANCE_SIZE_RATII (field : string) : option Qc :=
  if String.eqb field "potential" then Some (Q2Qc 1)
  else if String.eqb field "g_z" then Some (Q2Qc 2.5)
  else None.

(** ** External collaborators *)

(** A point-mass kernel: [kernel(longitude, cosphi, sinphi, radius,
    longitude_p, cosphi_p, sinphi_p, radius_p)]. *)
Definition kernel : Type := Qc → Qc → Qc → Qc → Qc → Qc → Qc → Qc → Qc.

(** The result of [scipy.optimize.minimize_scalar]. *)
Record OptimizeResult := { opt_x : Qc; opt_fun : Qc }.

Class Collaborators := {
  np_radians : Qc → Qc;
  np_sin : Qc → Qc;
  np_cos : Qc → Qc;
  np_arccos : Qc → Qc;
  np_isclose : Qc → Qc → bool;
  (* np.broadcast(a, b, c).shape, from the three shapes *)
  np_broadcast : list nat → list nat → list nat → outcome (list nat);
  (* the rows of np.empty((n, 6)) are not initialised *)
  np_empty_row : Tesseroid;
  (* numpy.polynomial.legendre.leggauss(degree) = (nodes, weights) *)
  leggauss : Z → list Qc * list Qc;
  (* minimize_scalar(f, bounds=[a, b], method="bounded") *)
  minimize_scalar : (Qc → Qc) → Qc → Qc → OptimizeResult;
  (* harmonica.forward.utils.distance_spherical *)
  distance_spherical : point → point → Qc;
  (* harmonica.forward.point_mass *)
  kernel_potential_spherical : kernel;
  kernel_g_z_spherical : kernel;
  (* harmonica.constants *)
  GRAVITATIONAL_CONST : Qc
}.

(** ** Adaptive discretization *)

Section AdaptiveDiscretization.
Context `{Collaborators}.
Local Open Scope Qc_scope.

(** Calculate the dimensions of the tesseroid. *)
Definition _tesseroid_dimensions (tesseroid : Tesseroid) : Qc * Qc * Qc :=
  let '(Tess w e s n bottom top) := tesseroid in
  let w := np_radians w in
  let e := np_radians e in
  let s := np_radians s in
  let n := np_radians n in
  let latitude_center := (n + s) / 2 in
  let l_lat := top * np_arccos (np_sin n * np_sin s + np_cos n * np_cos s) in
  let l_lon :=
    top * np_arccos (np_sin latitude_center ^ 2
                     + np_cos latitude_center ^ 2 * np_cos (e - w)) in
  let l_rad := top - bottom in
  (l_lon, l_lat, l_rad).

(** Distance between a computation point and the center of a tesseroid. *)
Definition _distance_tesseroid_point (coordinates : point)
    (tesseroid : Tesseroid) : Qc :=
  let '(Tess w e s n bottom top) := tesseroid in
  let longitude_p := (w + e) / 2 in
  let latitude_p := (s + n) / 2 in
  let radius_p := (bottom + top) / 2 in
  distance_spherical coordinates (longitude_p, latitude_p, radius_p).

(** Split tesseroid along each dimension.  The six component writes
    [stack[stack_top, 0..5] = ...] to one row are one row update. *)
Definition _split_tesseroid (tesseroid : Tesseroid) (n_lon n_lat n_rad : Z)
    (stack : array) (stack_top : Z) : outcome (array * Z) :=
  let '(Tess w e s n bottom top) := tesseroid in
  let d_lon := (e - w) / Qc_of_Z n_lon in
  let d_lat := (n - s) / Qc_of_Z n_lat in
  let d_rad := (top - bottom) / Qc_of_Z n_rad in
  for_ (range n_lon) (λ i,
    for_ (range n_lat) (λ j,
      for_ (range n_rad) (λ k '(stack, stack_top),
        let stack_top := (stack_top + 1)%Z in
        stack ← setitem stack stack_top
          (Tess (w + d_lon * Qc_of_Z i) (w + d_lon * Qc_of_Z (i + 1))
                (s + d_lat * Qc_of_Z j) (s + d_lat * Qc_of_Z (j + 1))
                (bottom + d_rad * Qc_of_Z k)
                (bottom + d_rad * Qc_of_Z (k + 1)));
        Ok (stack, stack_top))))
    (stack, stack_top).

(** The state of the [while] loop of [_adaptive_discretization]. *)
Record ad_state := AdState {
  ad_stack : array;
  ad_small_tesseroids : array;
  ad_stack_top : Z;
  ad_n_splits : Z
}.

(** "Check inequality": the number of parts along each direction. *)
Definition check_inequality (coordinates : point) (tesseroid : Tesseroid)
    (distance_size_ratio : Qc) (radial_discretization : bool) : Z * Z * Z :=
  let '(l_lon, l_lat, l_rad) := _tesseroid_dimensions tesseroid in
  let distance := _distance_tesseroid_point coordinates tesseroid in
  let n_lon := if ltb (distance / l_lon) distance_size_ratio then 2%Z else 1%Z in
  let n_lat := if ltb (distance / l_lat) distance_size_ratio then 2%Z else 1%Z in
  let n_rad :=
    if ltb (distance / l_rad) distance_size_ratio && radial_discretization
    then 2%Z else 1%Z in
  (n_lon, n_lat, n_rad).

(** One iteration of the loop, entered with [stack_top >= 0].  The row
    [stack[stack_top]] is read into its six scalars before any write. *)
Definition ad_iteration (coordinates : point) (distance_size_ratio : Qc)
    (radial_discretization : bool) (st : ad_state) : outcome ad_state :=
  let '(AdState stack small_tesseroids stack_top n_splits) := st in
  (* Pop the first tesseroid from the stack *)
  tesseroid ← getitem stack stack_top;
  let stack_top := (stack_top - 1)%Z in
  let '(n_lon, n_lat, n_rad) :=
    check_inequality coordinates tesseroid distance_size_ratio
                     radial_discretization in
  (* Apply discretization *)
  if bool_decide (1 < n_lon * n_lat * n_rad)%Z then
    if bool_decide (Z.of_nat (length stack)
                    < (stack_top + 1) + n_lon * n_lat * n_rad)%Z
    then Raise StackOverflow
    else
      '(stack, stack_top) ←
        _split_tesseroid tesseroid n_lon n_lat n_rad stack stack_top;
      Ok (AdState stack small_tesseroids stack_top n_splits)
  else
    if bool_decide (Z.of_nat (length small_tesseroids) < n_splits + 1)%Z
    then Raise ExceededMaxDiscretizations
    else
      small_tesseroids ← setitem small_tesseroids n_splits tesseroid;
      Ok (AdState stack small_tesseroids stack_top (n_splits + 1)).

(** [while stack_top >= 0: ...], cut after [fuel] iterations. *)
Fixpoint ad_loop (fuel : nat) (coordinates : point) (distance_size_ratio : Qc)
    (radial_discretization : bool) (st : ad_state) : outcome ad_state :=
  if bool_decide (ad_stack_top st < 0)%Z then Ok st
  else
    match fuel with
    | O => Raise FuelExhausted
    | S fuel' =>
        st' ← ad_iteration coordinates distance_size_ratio
                           radial_discretization st;
        ad_loop fuel' coordinates distance_size_ratio radial_discretization st'
    end.

(** The state after at most [k] iterations of the loop. *)
Fixpoint ad_iterate (k : nat) (coordinates : point) (distance_size_ratio : Qc)
    (radial_discretization : bool) (st : ad_state) : outcome ad_state :=
  match k with
  | O => Ok st
  | S k' =>
      if bool_decide (ad_stack_top st < 0)%Z then Ok st
      else
        st' ← ad_iteration coordinates distance_size_ratio
                           radial_discretization st;
        ad_iterate k' coordinates distance_size_ratio radial_discretization st'
  end.

(** The state in which the loop is entered: [stack[0] = tesseroid]. *)
Definition ad_init (tesseroid : Tesseroid) (stack small_tesseroids : array)
  : outcome ad_state :=
  stack ← setitem stack 0 tesseroid;
  Ok (AdState stack small_tesseroids 0 0).

(** A number of iterations the loop cannot exceed (see [ad_loop_fuel]). *)
Definition ad_fuel (stack small_tesseroids : array) : nat :=
  2 * length small_tesseroids + length stack.

(** Perform the adaptive discretization algorithm on a tesseroid.  The
    arrays [stack] and [small_tesseroids] are modified in place: the
    embedding returns them next to [n_splits]. *)
Definition _adaptive_discretization (coordinates : point)
    (tesseroid : Tesseroid) (distance_size_ratio : Qc)
    (stack small_tesseroids : array) (radial_discretization : bool)
  : outcome (Z * array * array) :=
  st ← ad_init tesseroid stack small_tesseroids;
  st ← ad_loop (ad_fuel stack small_tesseroids) coordinates
               distance_size_ratio radial_discretization st;
  Ok (ad_n_splits st, ad_stack st, ad_small_tesseroids st).

End AdaptiveDiscretization.

(** ** Gauss-Legendre quadrature *)

Section Quadrature.
Context `{Collaborators}.
Local Open Scope Qc_scope.

(** Calculate GLQ unscaled nodes and weights. *)
Definition glq_nodes_weights (glq_degrees : Z * Z * Z)
  : (list Qc * list Qc * list Qc) * (list Qc * list Qc * list Qc) :=
  let '(lon_degree, lat_degree, rad_degree) := glq_degrees in
  let '(lon_node, lon_weights) := leggauss lon_degree in
  let '(lat_node, lat_weights) := leggauss lat_degree in
  let '(rad_node, rad_weights) := leggauss rad_degree in
  ((lon_node, lat_node, rad_node), (lon_weights, lat_weights, rad_weights)).

(** [mass *= density_func(radius_p)] or [mass *= density]. *)
Definition times_density (mass : Qc) (density : option Qc)
    (density_func : option (Qc → Qc)) (radius_p : Qc) : outcome Qc :=
  match density with
  | None =>
      match density_func with
      | Some f => Ok (mass * f radius_p)
      | None => Raise TypeError
      end
  | Some d => Ok (mass * d)
  end.

(** Compute the effect of a tesseroid on a single observation point
    through GLQ. *)
Definition gauss_legendre_quadrature (longitude cosphi sinphi radius : Qc)
    (tesseroid : Tesseroid) (density : option Qc)
    (density_func : option (Qc → Qc))
    (glq_nodes glq_weights : list Qc * list Qc * list Qc) (kernel : kernel)
  : outcome Qc :=
  let '(Tess w e s n bottom top) := tesseroid in
  let a_factor :=
    1 / Qc_of_Z 8 * np_radians (e - w) * np_radians (n - s) * (top - bottom) in
  let '(lon_nodes, lat_nodes, rad_nodes) := glq_nodes in
  let '(lon_weights, lat_weights, rad_weights) := glq_weights in
  for_ (enumerate lat_nodes) (λ '(j, lat_node) result,
    let latitude_p :=
      np_radians (Q2Qc 0.5 * (n - s) * lat_node + Q2Qc 0.5 * (n + s)) in
    let cosphi_p := np_cos latitude_p in
    let sinphi_p := np_sin latitude_p in
    for_ (enumerate rad_nodes) (λ '(k, rad_node) result,
      let radius_p :=
        Q2Qc 0.5 * (top - bottom) * rad_node + Q2Qc 0.5 * (top + bottom) in
      let kappa := radius_p ^ 2 * cosphi_p in
      for_ (enumerate lon_nodes) (λ '(i, lon_node) result,
        let longitude_p :=
          np_radians (Q2Qc 0.5 * (e - w) * lon_node + Q2Qc 0.5 * (e + w)) in
        lon_weight ← getitem lon_weights i;
        lat_weight ← getitem lat_weights j;
        rad_weight ← getitem rad_weights k;
        let mass := a_factor * kappa * lon_weight * lat_weight * rad_weight in
        mass ← times_density mass density density_func radius_p;
        Ok (result + mass * kernel longitude cosphi sinphi radius
                                   longitude_p cosphi_p sinphi_p radius_p))
        result)
      result)
    0.

(** Compute gravitational field of tesseroids on computations points.
    [prange] runs the iterations over the computation points in any order
    or at once; they share nothing but [result], each writing its own
    entry, so the embedding runs them in sequence. *)
Definition jit_tesseroid_gravity (coordinates : list Qc * list Qc * list Qc)
    (tesseroids : array) (density : option (list Qc))
    (density_func : option (Qc → Qc)) (result : list Qc)
    (distance_size_ratio : Qc) (radial_adaptive_discretization : bool)
    (glq_nodes glq_weights : list Qc * list Qc * list Qc) (kernel : kernel)
  : outcome (list Qc) :=
  let '(longitude, latitude, radius) := coordinates in
  let longitude_rad := map np_radians longitude in
  let cosphi := map (λ x, np_cos (np_radians x)) latitude in
  let sinphi := map (λ x, np_sin (np_radians x)) latitude in
  for_ (range (Z.of_nat (length longitude))) (λ l result,
    let stack := replicate STACK_SIZE np_empty_row in
    let small_tesseroids := replicate MAX_DISCRETIZATIONS np_empty_row in
    '(result, _, _) ←
      for_ (range (Z.of_nat (length tesseroids)))
        (λ m '(result, stack, small_tesseroids),
          longitude_l ← getitem longitude l;
          latitude_l ← getitem latitude l;
          radius_l ← getitem radius l;
          tesseroid_m ← getitem tesseroids m;
          '(n_splits, stack, small_tesseroids) ←
            _adaptive_discretization (longitude_l, latitude_l, radius_l)
              tesseroid_m distance_size_ratio stack small_tesseroids
              radial_adaptive_discretization;
          result ← for_ (range n_splits) (λ tess_index result,
            tesseroid ← getitem small_tesseroids tess_index;
            current ← getitem result l;
            longitude_rad_l ← getitem longitude_rad l;
            cosphi_l ← getitem cosphi l;
            sinphi_l ← getitem sinphi l;
            radius_l ← getitem radius l;
            effect ←
              match density with
              | None =>
                  gauss_legendre_quadrature longitude_rad_l cosphi_l sinphi_l
                    radius_l tesseroid None density_func
                    glq_nodes glq_weights kernel
              | Some density =>
                  density_m ← getitem density m;
                  gauss_legendre_quadrature longitude_rad_l cosphi_l sinphi_l
                    radius_l tesseroid (Some density_m) None
                    glq_nodes glq_weights kernel
              end;
            setitem result l (current + effect)) result;
          Ok (result, stack, small_tesseroids))
        (result, stack, small_tesseroids);
    Ok result)
    result.

(** Define jitted versions of the forward modelling function. *)
Definition jit_tesseroid_gravity_serial := jit_tesseroid_gravity.
Definition jit_tesseroid_gravity_parallel := jit_tesseroid_gravity.

(** Return the parallelized or serialized forward modelling function. *)
Definition dispatcher (parallel : bool) :=
  if parallel then jit_tesseroid_gravity_parallel
  else jit_tesseroid_gravity_serial.

End Quadrature.

(** ** Density-based discretization *)

Section DensityBasedDiscretization.
Context `{Collaborators}.
Local Open Scope Qc_scope.

(** Compute the minimum and maximum value of a bounded density. *)
Definition density_minmax (density : Qc → Qc) (bottom top : Qc) : Qc * Qc :=
  let minimum := minimize_scalar density bottom top in
  let maximum := minimize_scalar (λ radius, - density radius) bottom top in
  (opt_fun minimum, - opt_fun maximum).

(** Compute the reference straight line that joins points of normalized
    density. *)
Definition straight_line (radius : Qc) (normalized_density : Qc → Qc)
    (bottom top : Qc) : Qc :=
  let norm_density_bottom := normalized_density bottom in
  let norm_density_top := normalized_density top in
  let slope := (norm_density_top - norm_density_bottom) / (top - bottom) in
  slope * (radius - bottom) + norm_density_bottom.

(** Compute maximum abs difference between normalized density and straight
    line: [(radius_split, max_diff)]. *)
Definition maximum_absolute_diff (normalized_density : Qc → Qc)
    (bottom top : Qc) : Qc * Qc :=
  let absolute_difference radius :=
    Qcabs (normalized_density radius
           - straight_line radius normalized_density bottom top) in
  let result :=
    minimize_scalar (λ radius, - absolute_difference radius) bottom top in
  let radius_split := opt_x result in
  let max_diff := - opt_fun result in
  (radius_split, max_diff).

(** The closure [normalized_density] of [_density_based_discretization]. *)
Definition normalized_density (density : Qc → Qc) (density_min density_max : Qc)
    (radius : Qc) : Qc :=
  (density radius - density_min) / (density_max - density_min).

(** [while pending: ...], cut after [fuel] iterations.  [pending.pop(0)]
    takes from the front, [pending.append] adds at the back. *)
Fixpoint dbd_loop (fuel : nat) (w e s n : Qc) (normalized_density : Qc → Qc)
    (size_original_tesseroid : Qc) (pending tesseroids : list Tesseroid)
  : outcome (list Tesseroid) :=
  match pending with
  | [] => Ok tesseroids
  | tesseroid :: pending =>
      match fuel with
      | O => Raise FuelExhausted
      | S fuel' =>
          let bottom := bottom tesseroid in
          let top := top tesseroid in
          let '(radius_split, max_diff) :=
            maximum_absolute_diff normalized_density bottom top in
          let size_ratio := (top - bottom) / size_original_tesseroid in
          if gtb (max_diff * size_ratio) DELTA_RATIO then
            dbd_loop fuel' w e s n normalized_density size_original_tesseroid
              (pending ++ [Tess w e s n radius_split top;
                           Tess w e s n bottom radius_split])
              tesseroids
          else
            dbd_loop fuel' w e s n normalized_density size_original_tesseroid
              pending (tesseroids ++ [Tess w e s n bottom top]%list)
      end
  end.

(** Applies density-based discretization to a single tesseroid. *)
Definition _density_based_discretization (fuel : nat) (tesseroid : Tesseroid)
    (density : Qc → Qc) : outcome (list Tesseroid) :=
  let '(Tess w e s n bottom top) := tesseroid in
  let '(density_min, density_max) := density_minmax density bottom top in
  if np_isclose density_min density_max then Ok [tesseroid]%list
  else
    let size_original_tesseroid := top - bottom in
    dbd_loop fuel w e s n (normalized_density density density_min density_max)
      size_original_tesseroid [tesseroid]%list [].

(** Apply density_based discretization to a collection of tesseroids. *)
Definition density_based_discretization (fuel : nat) (tesseroids : array)
    (density : Qc → Qc) : outcome array :=
  for_ tesseroids (λ tesseroid discretized_tesseroids,
    slices ← _density_based_discretization fuel tesseroid density;
    Ok (discretized_tesseroids ++ slices)) [].

End DensityBasedDiscretization.

(** ** Validation of the input *)

Section Validation.
Local Open Scope Qc_scope.

(** [((x + 180) % 360) - 180] *)
Definition to_180 (x : Qc) : Qc :=
  pymod (x + Qc_of_Z 180) (Qc_of_Z 360) - Qc_of_Z 180.

(** Modify longitudinal boundaries of tesseroids to ensure longitude
    continuity.  The mask [west > east] is computed on the copy before
    either column is written, so each selected row gets both bounds
    remapped and the other rows are left as they are. *)
Definition _longitude_continuity (tesseroids : array) : array :=
  map (λ t,
    if gtb (west t) (east t)
    then Tess (to_180 (west t)) (to_180 (east t))
              (south t) (north t) (bottom t) (top t)
    else t) tesseroids.

(** [if invalid.any(): raise ValueError(...)] *)
Definition reject_any (check : tesseroid_check) (invalid : Tesseroid → bool)
    (tesseroids : array) : outcome unit :=
  if existsb invalid tesseroids
  then Raise (InvalidTesseroids check (List.filter invalid tesseroids))
  else Ok ().

(** Check if tesseroids boundaries are well defined. *)
Definition _check_tesseroids (tesseroids : array) : outcome array :=
  reject_any LatitudeOutOfRange (λ t,
    (ltb (south t) (Qc_of_Z (-90)) || gtb (south t) (Qc_of_Z 90))
    || (ltb (north t) (Qc_of_Z (-90)) || gtb (north t) (Qc_of_Z 90)))
    tesseroids;;
  reject_any SouthGreaterThanNorth (λ t, gtb (south t) (north t)) tesseroids;;
  reject_any NegativeRadius (λ t, ltb (bottom t) 0 || ltb (top t) 0)
    tesseroids;;
  reject_any BottomGreaterThanTop (λ t, gtb (bottom t) (top t)) tesseroids;;
  reject_any LongitudeOutOfRange (λ t,
    (ltb (west t) (Qc_of_Z (-180)) || gtb (west t) (Qc_of_Z 360))
    || (ltb (east t) (Qc_of_Z (-180)) || gtb (east t) (Qc_of_Z 360)))
    tesseroids;;
  let tesseroids :=
    if existsb (λ t, gtb (west t) (east t)) tesseroids
    then _longitude_continuity tesseroids
    else tesseroids in
  reject_any WestGreaterThanEast (λ t, gtb (west t) (east t)) tesseroids;;
  reject_any MoreThanOneTurn (λ t, gtb (east t - west t) (Qc_of_Z 360))
    tesseroids;;
  Ok tesseroids.

(** The product of two boolean arrays of shapes [(p, n)] and [(q, n)]:
    NumPy broadcasts along the first axis when [p = q] or one of them
    is 1. *)
Definition broadcast_and (a b : list (list bool)) : outcome (list (list bool)) :=
  if bool_decide (length a = length b) then Ok (zip_with (zip_with andb) a b)
  else
    match a, b with
    | [row]%list, _ => Ok (map (zip_with andb row) b)
    | _, [row]%list => Ok (map (λ x, zip_with andb x row) a)
    | _, _ => Raise BroadcastError
    end.

(** Check if computation points are not inside the tesseroids.  When a
    point is inside, the code builds the message of a [ValueError] by
    indexing [coordinates[:, point_i]]. *)
Definition _check_points_outside_tesseroids
    (coordinates : list Qc * list Qc * list Qc) (tesseroids : array)
  : outcome unit :=
  let '(longitude, latitude, radius) := coordinates in
  let longitude_360 := map (λ x, pymod x (Qc_of_Z 360)) longitude in
  let longitude_180 := map to_180 longitude in
  let inside_longitude :=
    zip_with (λ l360 l180,
      map (λ t, (ltb (west t) l360 && ltb l360 (east t))
                || (ltb (west t) l180 && ltb l180 (east t))) tesseroids)
      longitude_360 longitude_180 in
  let inside_latitude :=
    map (λ lat, map (λ t, ltb (south t) lat && ltb lat (north t)) tesseroids)
        latitude in
  let inside_radius :=
    map (λ r, map (λ t, ltb (bottom t) r && ltb r (top t)) tesseroids)
        radius in
  inside ← broadcast_and inside_longitude inside_latitude;
  inside ← broadcast_and inside inside_radius;
  if existsb (existsb id) inside then Raise PointInsideTesseroid else Ok ().

End Validation.

(** ** The driver *)

(** The density argument: a function of the radius, or the values of
    [np.atleast_1d(density).ravel()]. *)
Inductive density_arg :=
| DensityFunction (f : Qc → Qc)
| DensityArray (values : list Qc).

Section Driver.
Context `{Collaborators}.
Local Open Scope Qc_scope.

(** [kernels = {"potential": ..., "g_z": ...}] *)
Definition kernels (field : string) : option kernel :=
  if String.eqb field "potential" then Some kernel_potential_spherical
  else if String.eqb field "g_z" then Some kernel_g_z_spherical
  else None.

(** [cast.size] *)
Definition size (shape : list nat) : nat := foldr Nat.mul 1%nat shape.

(** Compute gravitational field of tesseroids on computation points.
    [coordinates] holds the three arrays [coordinates[:3]] and [tesseroids]
    the rows of [np.atleast_2d(tesseroids)]; [dtype] is [np.float64];
    [fuel] bounds the loop of each density-based discretization. *)
Definition tesseroid_gravity (fuel : nat)
    (coordinates : ndarray * ndarray * ndarray) (tesseroids : array)
    (density : density_arg) (field : string) (parallel : bool)
    (radial_adaptive_discretization : bool) (disable_checks : bool)
  : outcome ndarray :=
  kernel ← match kernels field with
           | Some kernel => Ok kernel
           | None => Raise (FieldNotRecognized field)
           end;
  (* Figure out the shape and size of the output array *)
  let '(longitude, latitude, radius) := coordinates in
  cast ← np_broadcast (shape longitude) (shape latitude) (shape radius);
  let result := replicate (size cast) 0 in
  (* Convert coordinates and tesseroids to arrays *)
  let coordinates := (ravel longitude, ravel latitude, ravel radius) in
  (* Sanity checks for tesseroids and computation points *)
  tesseroids ←
    (if negb disable_checks then
       tesseroids ← _check_tesseroids tesseroids;
       _check_points_outside_tesseroids coordinates tesseroids;;
       Ok tesseroids
     else Ok tesseroids);
  (* Check if density are homogeneous or variable *)
  '(density, density_func, tesseroids) ←
    match density with
    | DensityFunction f =>
        tesseroids ← density_based_discretization fuel tesseroids f;
        Ok (None, Some f, tesseroids)
    | DensityArray density =>
        if negb disable_checks
           && negb (bool_decide (length density = length tesseroids))
        then Raise (DensityMismatch (length density) (length tesseroids))
        else Ok (Some density, None, tesseroids)
    end;
  let '(glq_nodes, glq_weights) := glq_nodes_weights GLQ_DEGREES in
  (* Compute gravitational field *)
  distance_size_ratio ← match DISTANCE_SIZE_RATII field with
                        | Some ratio => Ok ratio
                        | None => Raise KeyError
                        end;
  result ← dispatcher parallel coordinates tesseroids density density_func
             result distance_size_ratio radial_adaptive_discretization
             glq_nodes glq_weights kernel;
  let result := map (λ x, x * GRAVITATIONAL_CONST) result in
  (* Convert to more convenient units *)
  let result :=
    if String.eqb field "g_z" then map (λ x, x * Q2Qc 1e5) result
    else result in
  Ok (NdArray cast result).

End Driver.

(** ** Notions used by the statements *)

Section Notions.
Local Open Scope Qc_scope.

(** What the loop of [_adaptive_discretization] holds: the pending rows
    [stack[0 .. stack_top]], the last one on top, and the output rows
    [small_tesseroids[0 .. n_splits - 1]]. *)
Definition pending (st : ad_state) : list Tesseroid :=
  take (Z.to_nat (ad_stack_top st + 1)) (ad_stack st).
Definition output (st : ad_state) : list Tesseroid :=
  take (Z.to_nat (ad_n_splits st)) (ad_small_tesseroids st).

(** The bounds of the loop's indices. *)
Definition ad_wf (st : ad_state) : Prop :=
  (0 ≤ ad_stack_top st + 1 ≤ Z.of_nat (length (ad_stack st)))%Z
  ∧ (0 ≤ ad_n_splits st ≤ Z.of_nat (length (ad_small_tesseroids st)))%Z.

(** [stack_top += 1; stack[stack_top] = row]: the body of the innermost
    loop of [_split_tesseroid]. *)
Definition push (row : Tesseroid) (st : array * Z) : outcome (array * Z) :=
  let '(stack, stack_top) := st in
  let stack_top := (stack_top + 1)%Z in
  stack ← setitem stack stack_top row;
  Ok (stack, stack_top).

(** The interval [lo, hi] cut into [parts] pieces of equal length. *)
Definition subdivisions (lo hi : Qc) (parts : Z) : list (Qc * Qc) :=
  map (λ i, (lo + (hi - lo) / Qc_of_Z parts * Qc_of_Z i,
             lo + (hi - lo) / Qc_of_Z parts * Qc_of_Z (i + 1)))
      (range parts).

(** An interval left whole, or split into its 2 equal halves. *)
Definition halves (lo hi : Qc) (split : bool) : list (Qc * Qc) :=
  if split
  then [(lo, (lo + hi) / Qc_of_Z 2); ((lo + hi) / Qc_of_Z 2, hi)]%list
  else [(lo, hi)]%list.

(** The children of a tesseroid: the cartesian product of the pieces of
    its three intervals, the radius varying fastest. *)
Definition children (t : Tesseroid) (n_lon n_lat n_rad : Z) : list Tesseroid :=
  lon ← subdivisions (west t) (east t) n_lon;
  lat ← subdivisions (south t) (north t) n_lat;
  rad ← subdivisions (bottom t) (top t) n_rad;
  [Tess lon.1 lon.2 lat.1 lat.2 rad.1 rad.2]%list.

(** What one iteration of the loop does, on the pending and output rows:
    it pops the top row [t] and either replaces it by its children, or
    appends it to the output, or raises one of the two overflow errors. *)
Inductive ad_step `{Collaborators} (coordinates : point)
    (distance_size_ratio : Qc) (radial_discretization : bool) (st : ad_state)
  : outcome ad_state → Prop :=
| ad_step_split t rest n_lon n_lat n_rad st' :
    pending st = rest ++ [t]%list →
    check_inequality coordinates t distance_size_ratio radial_discretization
    = (n_lon, n_lat, n_rad) →
    (1 < n_lon * n_lat * n_rad)%Z →
    (Z.of_nat (length rest) + n_lon * n_lat * n_rad
     ≤ Z.of_nat (length (ad_stack st)))%Z →
    pending st' = rest ++ children t n_lon n_lat n_rad →
    output st' = output st →
    ad_n_splits st' = ad_n_splits st →
    length (ad_stack st') = length (ad_stack st) →
    length (ad_small_tesseroids st') = length (ad_small_tesseroids st) →
    ad_wf st' →
    ad_step coordinates distance_size_ratio radial_discretization st (Ok st')
| ad_step_stack_overflow t rest n_lon n_lat n_rad :
    pending st = rest ++ [t]%list →
    check_inequality coordinates t distance_size_ratio radial_discretization
    = (n_lon, n_lat, n_rad) →
    (1 < n_lon * n_lat * n_rad)%Z →
    (Z.of_nat (length (ad_stack st))
     < Z.of_nat (length rest) + n_lon * n_lat * n_rad)%Z →
    ad_step coordinates distance_size_ratio radial_discretization st
      (Raise StackOverflow)
| ad_step_leaf t rest n_lon n_lat n_rad st' :
    pending st = rest ++ [t]%list →
    check_inequality coordinates t distance_size_ratio radial_discretization
    = (n_lon, n_lat, n_rad) →
    (n_lon * n_lat * n_rad ≤ 1)%Z →
    (ad_n_splits st + 1 ≤ Z.of_nat (length (ad_small_tesseroids st)))%Z →
    pending st' = rest →
    output st' = output st ++ [t]%list →
    ad_n_splits st' = (ad_n_splits st + 1)%Z →
    length (ad_stack st') = length (ad_stack st) →
    length (ad_small_tesseroids st') = length (ad_small_tesseroids st) →
    ad_wf st' →
    ad_step coordinates distance_size_ratio radial_discretization st (Ok st')
| ad_step_buffer_overflow t rest n_lon n_lat n_rad :
    pending st = rest ++ [t]%list →
    check_inequality coordinates t distance_size_ratio radial_discretization
    = (n_lon, n_lat, n_rad) →
    (n_lon * n_lat * n_rad ≤ 1)%Z →
    (Z.of_nat (length (ad_small_tesseroids st)) < ad_n_splits st + 1)%Z →
    ad_step coordinates distance_size_ratio radial_discretization st
      (Raise ExceededMaxDiscretizations).

(** A bound on the number of iterations still to come: a split uses at
    least one more row of the stack, a leaf one more row of the output and
    frees one row of the stack. *)
Definition ad_potential (st : ad_state) : Z :=
  (2 * (Z.of_nat (length (ad_small_tesseroids st)) - ad_n_splits st)
   + (Z.of_nat (length (ad_stack st)) - Z.of_nat (length (pending st))))%Z.

(** The pieces of a tesseroid cut along one direction only. *)
Definition lon_parts (t : Tesseroid) (n : Z) : list Tesseroid :=
  map (λ lon, Tess lon.1 lon.2 (south t) (north t) (bottom t) (top t))
      (subdivisions (west t) (east t) n).
Definition lat_parts (t : Tesseroid) (n : Z) : list Tesseroid :=
  map (λ lat, Tess (west t) (east t) lat.1 lat.2 (bottom t) (top t))
      (subdivisions (south t) (north t) n).
Definition rad_parts (t : Tesseroid) (n : Z) : list Tesseroid :=
  map (λ rad, Tess (west t) (east t) (south t) (north t) rad.1 rad.2)
      (subdivisions (bottom t) (top t) n).

(** A tesseroid as a box of (longitude, latitude, radius). *)
Definition in_box (p : point) (t : Tesseroid) : Prop :=
  (west t ≤ p.1.1 ≤ east t) ∧ (south t ≤ p.1.2 ≤ north t)
  ∧ (bottom t ≤ p.2 ≤ top t).
Definition in_interior (p : point) (t : Tesseroid) : Prop :=
  (west t < p.1.1 < east t) ∧ (south t < p.1.2 < north t)
  ∧ (bottom t < p.2 < top t).
Definition disjoint_interiors (a b : Tesseroid) : Prop :=
  ∀ p, ¬ (in_interior p a ∧ in_interior p b).

(** [parts] is a partition of the box [whole]: the parts cover it, nothing
    of them lies outside, and no two of them overlap in their interiors. *)
Definition tiles (whole : Tesseroid) (parts : list Tesseroid) : Prop :=
  (∀ p, in_box p whole ↔ Exists (in_box p) parts)
  ∧ ForallOrdPairs disjoint_interiors parts.

(** The sum of a list of numbers. *)
Definition sum_list (xs : list Qc) : Qc := foldr Qcplus 0 xs.

End Notions.

(** ** The point masses of a small tesseroid *)


Section PointMasses.
Context `{Collaborators}.
Local Open Scope Qc_scope.







End PointMasses.

(** ** An executable instance of the collaborators

    Simple rational stand-ins, to run the definitions on concrete inputs:
    the size of a tesseroid along longitude is taken proportional to its
    longitude span, the distance is the radial distance, the quadrature
    has the two nodes -1/2 and 1/2, and the minimiser looks at the two
    bounds and at the middle of the interval. *)

Definition test_collaborators : Collaborators := {|
  np_radians x := x;
  np_sin _ := 0%Qc;
  np_cos x := x;
  np_arccos x := x;
  np_isclose x y := bool_decide (x = y);
  np_broadcast a _ _ := Ok a;
  np_empty_row := Tess 0 0 0 0 0 0;
  leggauss _ := ([Q2Qc (-0.5); Q2Qc 0.5], [Q2Qc 1; Q2Qc 1]);
  minimize_scalar f a b :=
    let least x y := if ltb (f y) (f x) then y else x in
    let x := least (least a ((a + b) / 2)%Qc) b in
    {| opt_x := x; opt_fun := f x |};
  distance_spherical p q := (p.2 - q.2)%Qc;
  kernel_potential_spherical := λ _ _ _ r _ _ _ r_p, (/ (r - r_p))%Qc;
  kernel_g_z_spherical := λ _ _ _ r _ _ _ r_p, (/ ((r - r_p) * (r - r_p)))%Qc;
  GRAVITATIONAL_CONST := Q2Qc 1
|}.

(** The tesseroid [0, 4] x [1, 3] x [1, 2] of the examples. *)
Definition test_tesseroid : Tesseroid :=
  Tess (Qc_of_Z 0) (Qc_of_Z 4) (Qc_of_Z 1) (Qc_of_Z 3) (Qc_of_Z 1) (Qc_of_Z 2).

(** A computation point above it, at radius 10, and the state in which the
    loop of the adaptive discretization is entered for it. *)
Definition test_point : point := (Qc_of_Z 0, Qc_of_Z 0, Qc_of_Z 10).
Definition test_stack : array :=
  replicate STACK_SIZE (np_empty_row (Collaborators := test_collaborators)).
Definition test_small_tesseroids : array :=
  replicate MAX_DISCRETIZATIONS
    (np_empty_row (Collaborators := test_collaborators)).

(** Equality of tesseroids, exceptions and outcomes is decidable. *)
#[global] Instance Tesseroid_eq_dec : EqDecision Tesseroid.
Proof. solve_decision. Defined.
#[global] Instance string_eq_dec : EqDecision string := string_dec.
#[global] Instance tesseroid_check_eq_dec : EqDecision tesseroid_check.
Proof. solve_decision. Defined.
#[global] Instance exn_eq_dec : EqDecision exn.
Proof. solve_decision. Defined.
#[global] Instance outcome_eq_dec {A : Type} `{EqDecision A} : EqDecision (outcome A).
Proof. solve_decision. Defined.


(** The test point at radius 100, as the three coordinate arrays of the
    driver. *)
Definition test_coordinates : ndarray * ndarray * ndarray :=
  (NdArray [] [Qc_of_Z 0], NdArray [] [Qc_of_Z 0], NdArray [] [Qc_of_Z 100]).

(** ** Notions of the further properties *)

(** A valid tesseroid, after [_check_tesseroids]. *)
Definition valid_tesseroid (t : Tesseroid) : Prop :=
  (Qc_of_Z (-90) ≤ south t ∧ south t ≤ north t ∧ north t ≤ Qc_of_Z 90
   ∧ Q2Qc 0 ≤ bottom t ∧ bottom t ≤ top t
   ∧ Qc_of_Z (-180) ≤ west t ∧ west t ≤ east t ∧ east t ≤ Qc_of_Z 360
   ∧ east t - west t ≤ Qc_of_Z 360)%Qc.

(** What [_check_tesseroids] checks before the longitude continuity. *)
Definition valid_before_continuity (t : Tesseroid) : Prop :=
  (Qc_of_Z (-90) ≤ south t ∧ south t ≤ Qc_of_Z 90
   ∧ Qc_of_Z (-90) ≤ north t ∧ north t ≤ Qc_of_Z 90
   ∧ south t ≤ north t
   ∧ Q2Qc 0 ≤ bottom t ∧ Q2Qc 0 ≤ top t ∧ bottom t ≤ top t
   ∧ Qc_of_Z (-180) ≤ west t ∧ west t ≤ Qc_of_Z 360
   ∧ Qc_of_Z (-180) ≤ east t ∧ east t ≤ Qc_of_Z 360)%Qc.



(** The volume of a tesseroid as a box of (longitude, latitude, radius). *)
Definition box_volume (t : Tesseroid) : Qc :=
  ((east t - west t) * (north t - south t) * (top t - bottom t))%Qc.

(** A tesseroid with ordered bounds that lies within another. *)
Definition within (whole t : Tesseroid) : Prop :=
  (west whole ≤ west t ∧ west t ≤ east t ∧ east t ≤ east whole
   ∧ south whole ≤ south t ∧ south t ≤ north t ∧ north t ≤ north whole
   ∧ bottom whole ≤ bottom t ∧ bottom t ≤ top t ∧ top t ≤ top whole)%Qc.

(** The radial extent of a tesseroid. *)
Definition thickness (t : Tesseroid) : Qc := (top t - bottom t)%Qc.

(** * Properties *)

(** ** Arrays and loops *)

Lemma py_index_nonneg (len : nat) (i : Z) :
  (0 ≤ i < Z.of_nat len)%Z → py_index len i = Some (Z.to_nat i).
Proof. intros Hi. unfold py_index. by rewrite bool_decide_eq_true_2. Qed.

Lemma py_index_ge (len : nat) (i : Z) :
  (Z.of_nat len ≤ i)%Z → py_index len i = None.
Proof.
  intros Hi. unfold py_index.
  rewrite !bool_decide_eq_false_2; [done | lia | lia].
Qed.

Lemma getitem_nonneg {A : Type} (a : list A) (i : Z) (x : A) :
  (0 ≤ i)%Z → a !! Z.to_nat i = Some x → getitem a i = Ok x.
Proof.
  intros Hi Hx. unfold getitem.
  rewrite py_index_nonneg; [simpl; by rewrite Hx |].
  apply lookup_lt_Some in Hx. lia.
Qed.


Lemma setitem_nonneg {A : Type} (a : list A) (i : Z) (x : A) :
  (0 ≤ i < Z.of_nat (length a))%Z →
  setitem a i x = Ok (<[Z.to_nat i:=x]> a).
Proof. intros Hi. unfold setitem. by rewrite py_index_nonneg. Qed.

Lemma setitem_ge {A : Type} (a : list A) (i : Z) (x : A) :
  (Z.of_nat (length a) ≤ i)%Z → setitem a i x = Raise IndexError.
Proof. intros Hi. unfold setitem. by rewrite py_index_ge. Qed.

Lemma for_app {A S : Type} (xs ys : list A) (body : A → S → outcome S) (s : S) :
  for_ (xs ++ ys) body s = s' ← for_ xs body s; for_ ys body s'.
Proof.
  revert s. induction xs as [|x xs IH]; intros s; simpl; [done |].
  destruct (body x s) as [s'|e]; simpl; [apply IH | done].
Qed.

Lemma for_bind {A B S : Type} (xs : list A) (g : A → list B)
    (body : B → S → outcome S) (s : S) :
  for_ (xs ≫= g) body s = for_ xs (λ x, for_ (g x) body) s.
Proof.
  revert s. induction xs as [|x xs IH]; intros s; simpl; [done |].
  rewrite for_app.
  destruct (for_ (g x) body s) as [s'|e]; simpl; [apply IH | done].
Qed.

Lemma for_map {A B S : Type} (f : A → B) (xs : list A)
    (body : B → S → outcome S) (s : S) :
  for_ (map f xs) body s = for_ xs (λ x, body (f x)) s.
Proof.
  revert s. induction xs as [|x xs IH]; intros s; simpl; [done |].
  destruct (body (f x) s) as [s'|e]; simpl; [apply IH | done].
Qed.

Lemma for_ext {A S : Type} (xs : list A) (f g : A → S → outcome S) (s : S) :
  (∀ x s, f x s = g x s) → for_ xs f s = for_ xs g s.
Proof.
  intros Hfg. revert s. induction xs as [|x xs IH]; intros s; simpl; [done |].
  rewrite Hfg. destruct (g x s); simpl; [apply IH | done].
Qed.

Lemma bind_map_list {A B C : Type} (f : A → B) (g : B → list C) (xs : list A) :
  map f xs ≫= g = xs ≫= (λ x, g (f x)).
Proof. induction xs as [|x xs IH]; csimpl; [done | by f_equal]. Qed.

(** ** Pushing rows on the stack *)

(** Pushing rows that fit writes them above the pending ones and leaves
    the rest of the array alone. *)
Lemma for_push_fits (rows : list Tesseroid) (stack : array) (stack_top : Z) :
  (-1 ≤ stack_top)%Z →
  (stack_top + 1 + Z.of_nat (length rows) ≤ Z.of_nat (length stack))%Z →
  for_ rows push (stack, stack_top)
  = Ok (take (Z.to_nat (stack_top + 1)) stack ++ rows
        ++ drop (Z.to_nat (stack_top + 1) + length rows) stack,
        (stack_top + Z.of_nat (length rows))%Z).
Proof.
  revert stack stack_top.
  induction rows as [|r rows IH]; intros stack stack_top Htop Hfit; simpl.
  - rewrite Nat.add_0_r, take_drop, Z.add_0_r. done.
  - simpl in Hfit. rewrite setitem_nonneg by lia. simpl.
    rewrite IH by (rewrite ?length_insert; lia).
    f_equal. f_equal; [|lia].
    replace (Z.to_nat (stack_top + 1 + 1)) with (S (Z.to_nat (stack_top + 1)))
      by lia.
    rewrite (take_S_r _ _ r)
      by (apply list_lookup_insert_eq; lia).
    rewrite take_insert_ge by lia.
    rewrite drop_insert_lt by lia.
    rewrite <-app_assoc. simpl. do 3 f_equal. f_equal. lia.
Qed.

Lemma subdivisions_length (lo hi : Qc) (parts : Z) :
  length (subdivisions lo hi parts) = Z.to_nat parts.
Proof. unfold subdivisions, range. by rewrite length_map, length_seqZ. Qed.

Lemma bind_length_const {A B : Type} (xs : list A) (f : A → list B) (n : nat) :
  (∀ x, length (f x) = n) → length (xs ≫= f) = (length xs * n)%nat.
Proof.
  intros Hf. induction xs as [|x xs IH]; csimpl; [done |].
  rewrite length_app, Hf, IH. lia.
Qed.

(** The number of children is the product of the three counts. *)
Lemma children_length (t : Tesseroid) (n_lon n_lat n_rad : Z) :
  (0 ≤ n_lon)%Z → (0 ≤ n_lat)%Z → (0 ≤ n_rad)%Z →
  Z.of_nat (length (children t n_lon n_lat n_rad))
  = (n_lon * n_lat * n_rad)%Z.
Proof.
  intros Hlon Hlat Hrad. unfold children.
  rewrite (bind_length_const _ _ (Z.to_nat n_lat * Z.to_nat n_rad)).
  - rewrite subdivisions_length. lia.
  - intros lon. rewrite (bind_length_const _ _ (Z.to_nat n_rad)).
    + by rewrite subdivisions_length.
    + intros lat. rewrite (bind_length_const _ _ 1%nat).
      * rewrite subdivisions_length. lia.
      * done.
Qed.

(** [_split_tesseroid] pushes the children, in their order. *)
Lemma split_tesseroid_pushes (t : Tesseroid) (n_lon n_lat n_rad : Z)
    (stack : array) (stack_top : Z) :
  _split_tesseroid t n_lon n_lat n_rad stack stack_top
  = for_ (children t n_lon n_lat n_rad) push (stack, stack_top).
Proof.
  destruct t as [w e s n b tp]. unfold _split_tesseroid, children, subdivisions.
  simpl. rewrite bind_map_list, for_bind. apply for_ext. intros i st.
  rewrite bind_map_list, for_bind. apply for_ext. intros j st'.
  rewrite bind_map_list, for_bind. apply for_ext. intros k [st1 top1].
  simpl. destruct (setitem _ _ _); done.
Qed.

(** ** One iteration of the adaptive discretization *)

Section Iteration.
Context `{Collaborators}.
Implicit Types (st : ad_state) (t : Tesseroid).

Lemma check_inequality_range coordinates t ratio radial n_lon n_lat n_rad :
  check_inequality coordinates t ratio radial = (n_lon, n_lat, n_rad) →
  (n_lon = 1 ∨ n_lon = 2)%Z ∧ (n_lat = 1 ∨ n_lat = 2)%Z
  ∧ (n_rad = 1 ∨ n_rad = 2)%Z.
Proof.
  unfold check_inequality.
  destruct (_tesseroid_dimensions t) as [[l_lon l_lat] l_rad].
  intros [= <- <- <-].
  repeat split; match goal with |- context [if ?b then _ else _] =>
    destruct b; auto end.
Qed.

(** The row on top of the stack and the rows below it. *)
Lemma pending_top st :
  ad_wf st → (0 ≤ ad_stack_top st)%Z →
  ∃ t, ad_stack st !! Z.to_nat (ad_stack_top st) = Some t
       ∧ pending st = take (Z.to_nat (ad_stack_top st)) (ad_stack st) ++ [t].
Proof.
  intros [Hs _] Htop.
  destruct (lookup_lt_is_Some_2 (ad_stack st) (Z.to_nat (ad_stack_top st)))
    as [t Ht]; [lia |].
  exists t. split; [done |]. unfold pending.
  replace (Z.to_nat (ad_stack_top st + 1)) with (S (Z.to_nat (ad_stack_top st)))
    by lia.
  by apply take_S_r.
Qed.

(** One iteration does one of the four things of [ad_step]. *)
Lemma ad_iteration_spec coordinates ratio radial st :
  ad_wf st → (0 ≤ ad_stack_top st)%Z →
  ad_step coordinates ratio radial st
    (ad_iteration coordinates ratio radial st).
Proof.
  intros Hwf Htop. destruct (pending_top st Hwf Htop) as (t & Ht & Hpend).
  destruct st as [stack small stack_top n_splits]. simpl in *.
  destruct Hwf as [Hs Hn]. simpl in *.
  unfold ad_iteration. rewrite (getitem_nonneg _ _ t) by done. simpl.
  destruct (check_inequality coordinates t ratio radial)
    as [[n_lon n_lat] n_rad] eqn:Hcheck.
  pose proof (check_inequality_range _ _ _ _ _ _ _ Hcheck) as (Hlon & Hlat & Hrad).
  set (rest := take (Z.to_nat stack_top) stack) in *.
  assert (Hrest : length rest = Z.to_nat stack_top).
  { unfold rest. rewrite length_take. lia. }
  assert (Hlen : Z.of_nat (length (children t n_lon n_lat n_rad))
                 = (n_lon * n_lat * n_rad)%Z).
  { apply children_length; lia. }
  case_bool_decide as Hsplit.
  - case_bool_decide as Hover.
    + eapply ad_step_stack_overflow; eauto. simpl. lia.
    + rewrite split_tesseroid_pushes, for_push_fits by lia. simpl.
      replace (Z.to_nat (stack_top - 1 + 1)) with (Z.to_nat stack_top) by lia.
      fold rest.
      eapply ad_step_split; eauto; simpl.
      * lia.
      * unfold pending. simpl. rewrite app_assoc.
        apply take_app_length'. rewrite length_app. lia.
      * rewrite !length_app, length_drop. lia.
      * split; simpl; [|done]. rewrite !length_app, length_drop. lia.
  - case_bool_decide as Hover.
    + eapply ad_step_buffer_overflow; eauto; simpl; lia.
    + rewrite setitem_nonneg by lia. simpl.
      eapply ad_step_leaf; eauto; simpl.
      * lia.
      * lia.
      * unfold pending. simpl.
        replace (Z.to_nat (stack_top - 1 + 1)) with (Z.to_nat stack_top) by lia.
        done.
      * unfold output. simpl.
        replace (Z.to_nat (n_splits + 1)) with (S (Z.to_nat n_splits)) by lia.
        rewrite (take_S_r _ _ t) by (apply list_lookup_insert_eq; lia).
        by rewrite take_insert_ge by lia.
      * by rewrite length_insert.
      * split; simpl; [lia |]. rewrite length_insert. lia.
Qed.

(** [ad_step], read for a given top row and given counts. *)
Lemma ad_step_inv coordinates ratio radial st t rest n_lon n_lat n_rad r :
  pending st = rest ++ [t] →
  check_inequality coordinates t ratio radial = (n_lon, n_lat, n_rad) →
  ad_step coordinates ratio radial st r →
  ((1 < n_lon * n_lat * n_rad)%Z
   ∧ (Z.of_nat (length rest) + n_lon * n_lat * n_rad
      ≤ Z.of_nat (length (ad_stack st)))%Z
   ∧ ∃ st', r = Ok st' ∧ pending st' = rest ++ children t n_lon n_lat n_rad
            ∧ output st' = output st ∧ ad_wf st')
  ∨ ((1 < n_lon * n_lat * n_rad)%Z
     ∧ (Z.of_nat (length (ad_stack st))
        < Z.of_nat (length rest) + n_lon * n_lat * n_rad)%Z
     ∧ r = Raise StackOverflow)
  ∨ ((n_lon * n_lat * n_rad ≤ 1)%Z
     ∧ (ad_n_splits st + 1 ≤ Z.of_nat (length (ad_small_tesseroids st)))%Z
     ∧ ∃ st', r = Ok st' ∧ pending st' = rest
              ∧ output st' = output st ++ [t] ∧ ad_wf st')
  ∨ ((n_lon * n_lat * n_rad ≤ 1)%Z
     ∧ (Z.of_nat (length (ad_small_tesseroids st)) < ad_n_splits st + 1)%Z
     ∧ r = Raise ExceededMaxDiscretizations).
Proof.
  intros Hpend Hcheck Hstep.
  destruct Hstep as [t0 rest0 a b c st' Hp Hc | t0 rest0 a b c Hp Hc
                    | t0 rest0 a b c st' Hp Hc | t0 rest0 a b c Hp Hc];
    rewrite Hpend in Hp; apply app_inj_tail in Hp as [-> ->];
    rewrite Hcheck in Hc; injection Hc as -> -> ->.
  - left. split_and!; [done | done |]. exists st'. by split_and!.
  - right. left. by split_and!.
  - right. right. left. split_and!; [done | done |]. exists st'.
    split_and!; [done | done | done | done].
  - right. right. right. by split_and!.
Qed.

End Iteration.

(** ** The loop of the adaptive discretization *)

Section Loop.
Context `{Collaborators}.
Variables (coordinates : point) (ratio : Qc) (radial : bool).
Implicit Types (st : ad_state) (t : Tesseroid).

Local Abbreviation iteration := (ad_iteration coordinates ratio radial).
Local Abbreviation iterate k := (ad_iterate k coordinates ratio radial).
Local Abbreviation loop fuel := (ad_loop fuel coordinates ratio radial).
Local Abbreviation step := (ad_step coordinates ratio radial).

Lemma pending_length st :
  ad_wf st → Z.of_nat (length (pending st)) = (ad_stack_top st + 1)%Z.
Proof. intros [Hs _]. unfold pending. rewrite length_take. lia. Qed.



Lemma ad_step_Ok_wf st st' : step st (Ok st') → ad_wf st'.
Proof. inversion 1; subst; done. Qed.




(** Induction along the iterations of the loop. *)
Lemma ad_iterate_invariant (I : ad_state → Prop) k st st' :
  (∀ s s', I s → ad_wf s → (0 ≤ ad_stack_top s)%Z → step s (Ok s') → I s') →
  I st → ad_wf st → iterate k st = Ok st' → I st' ∧ ad_wf st'.
Proof.
  intros Hstep. revert st. induction k as [|k IH]; intros st HI Hwf; simpl.
  - intros [= <-]. done.
  - case_bool_decide as Htop; [intros [= <-]; done |].
    pose proof (ad_iteration_spec coordinates ratio radial st Hwf
                  ltac:(lia)) as Hspec.
    destruct (iteration st) as [st1|e]; simpl; [|done].
    apply IH; [by eapply Hstep; eauto; lia | by eapply ad_step_Ok_wf].
Qed.

Lemma ad_iterate_wf k st st' :
  ad_wf st → iterate k st = Ok st' → ad_wf st'.
Proof.
  intros Hwf Hk.
  by destruct (ad_iterate_invariant (λ _, True) k st st') as [_ ?].
Qed.

(** When the loop ends, it ends in the state the iterations lead to, with
    an empty stack. *)
Lemma ad_loop_Ok fuel st st' :
  loop fuel st = Ok st' →
  iterate fuel st = Ok st' ∧ (ad_stack_top st' < 0)%Z.
Proof.
  revert st. induction fuel as [|fuel IH]; intros st; simpl.
  - case_bool_decide; [intros [= <-]; done | done].
  - case_bool_decide; [intros [= <-]; done |].
    destruct (iteration st) as [st1|e]; simpl; [apply IH | done].
Qed.





(** The state the loop starts in. *)
Lemma ad_init_Ok t (stack small : array) :
  (1 ≤ length stack)%nat →
  ∃ st, ad_init t stack small = Ok st
        ∧ pending st = [t] ∧ output st = [] ∧ ad_wf st
        ∧ (ad_potential st < Z.of_nat (ad_fuel stack small))%Z
        ∧ length (ad_stack st) = length stack
        ∧ ad_small_tesseroids st = small.
Proof.
  intros Hlen. unfold ad_init. rewrite setitem_nonneg by lia. simpl.
  eexists. split; [done |].
  assert (Hp : pending (AdState (<[Z.to_nat 0:=t]> stack) small 0 0) = [t]).
  { unfold pending. simpl. destruct stack; [simpl in Hlen; lia | done]. }
  split_and!; try done.
  - split; simpl; rewrite ?length_insert; lia.
  - unfold ad_potential, ad_fuel, pending.
    destruct stack; simpl in *; lia.
  - simpl. by rewrite length_insert.
Qed.

End Loop.

(** ** Exact arithmetic

    Facts on [Qc] are proved on [Q], where [lra] works: [qc_lra] moves a
    goal and its hypotheses from [Qc] to [Q]. *)

Section QcToQ.
Local Open Scope Qc_scope.

Lemma this_plus (x y : Qc) : (this (x + y) == this x + this y)%Q.
Proof. apply Qred_correct. Qed.
Lemma this_mult (x y : Qc) : (this (x * y) == this x * this y)%Q.
Proof. apply Qred_correct. Qed.
Lemma this_opp (x : Qc) : (this (- x) == - this x)%Q.
Proof. apply Qred_correct. Qed.
Lemma this_minus (x y : Qc) : (this (x - y) == this x - this y)%Q.
Proof. unfold Qcminus. rewrite this_plus, this_opp. reflexivity. Qed.
Lemma this_inv (x : Qc) : (this (/ x) == / this x)%Q.
Proof. apply Qred_correct. Qed.
Lemma this_div (x y : Qc) : (this (x / y) == this x * / this y)%Q.
Proof. unfold Qcdiv. rewrite this_mult, this_inv. reflexivity. Qed.
Lemma this_Q2Qc (q : Q) : (this (Q2Qc q) == q)%Q.
Proof. apply Qred_correct. Qed.
Lemma this_Qc_of_Z (z : Z) : this (Qc_of_Z z) = inject_Z z.
Proof. reflexivity. Qed.
Lemma Qc_eq_this (x y : Qc) : x = y ↔ (this x == this y)%Q.
Proof. split; [intros ->; reflexivity | apply Qc_is_canon]. Qed.

End QcToQ.

Ltac qc_push :=
  repeat first [ rewrite this_plus | rewrite this_minus | rewrite this_mult
               | rewrite this_opp | rewrite this_div | rewrite this_inv
               | rewrite this_Q2Qc | rewrite this_Qc_of_Z ].
Ltac qc_push_in H :=
  repeat first [ rewrite this_plus in H | rewrite this_minus in H
               | rewrite this_mult in H | rewrite this_opp in H
               | rewrite this_div in H | rewrite this_inv in H
               | rewrite this_Q2Qc in H | rewrite this_Qc_of_Z in H ].
Ltac q_consts :=
  unfold inject_Z in *;
  repeat match goal with
  | |- context [Qmake (Z.add ?a ?b)] =>
      let z := eval compute in (Z.add a b) in change (Z.add a b) with z
  | H : context [Qmake (Z.add ?a ?b)] |- _ =>
      let z := eval compute in (Z.add a b) in change (Z.add a b) with z in H
  | |- context [Qinv (Z.pos ?p # 1)] =>
      change (Qinv (Z.pos p # 1)) with (1 # p)%Q
  | H : context [Qinv (Z.pos ?p # 1)] |- _ =>
      change (Qinv (Z.pos p # 1)) with (1 # p)%Q in H
  end.
Ltac qc2q :=
  repeat match goal with
  | H : @eq Qc _ _ |- _ => apply Qc_eq_this in H; qc_push_in H; revert H
  | H : Qclt _ _ |- _ => unfold Qclt in H; qc_push_in H; revert H
  | H : Qcle _ _ |- _ => unfold Qcle in H; qc_push_in H; revert H
  | H : ¬ Qclt _ _ |- _ => unfold Qclt in H; qc_push_in H; revert H
  | H : ¬ Qcle _ _ |- _ => unfold Qcle in H; qc_push_in H; revert H
  end;
  try match goal with |- @eq Qc _ _ => apply Qc_eq_this end;
  unfold Qclt, Qcle; qc_push; intros; q_consts.
Ltac qc_lra := qc2q; lra.

(** ** Boxes and partitions *)

Section Geometry.
Local Open Scope Qc_scope.


Lemma subdivisions_1 (lo hi : Qc) : subdivisions lo hi 1 = [(lo, hi)]%list.
Proof.
  unfold subdivisions, range. change (seqZ 0 1) with [0%Z]%list. simpl. f_equal. f_equal; qc_lra.
Qed.

Lemma subdivisions_2 (lo hi : Qc) :
  subdivisions lo hi 2
  = [(lo, (lo + hi) / Qc_of_Z 2); ((lo + hi) / Qc_of_Z 2, hi)]%list.
Proof.
  unfold subdivisions, range. change (seqZ 0 2) with [0%Z; 1%Z]%list. simpl. repeat f_equal; qc_lra.
Qed.

Lemma halves_cover (lo hi x : Qc) :
  lo ≤ x ≤ hi ↔ lo ≤ x ≤ (lo + hi) / Qc_of_Z 2 ∨ (lo + hi) / Qc_of_Z 2 ≤ x ≤ hi.
Proof.
  split.
  - intros [H1 H2].
    destruct (Qclt_le_dec x ((lo + hi) / Qc_of_Z 2)) as [Hx|Hx];
      [left | right]; split; qc_lra.
  - intros [[H1 H2]|[H1 H2]]; split; qc_lra.
Qed.

Lemma halves_disjoint (lo hi x : Qc) :
  lo < x < (lo + hi) / Qc_of_Z 2 → (lo + hi) / Qc_of_Z 2 < x < hi → False.
Proof. intros [H1 H2] [H3 H4]. qc_lra. Qed.

Lemma interior_mono (p : point) (c t : Tesseroid) :
  (∀ q, in_box q c → in_box q t) → in_interior p c → in_interior p t.
Proof.
  destruct p as [[x y] z]. unfold in_box, in_interior. simpl.
  intros Hsub ((H1 & H2) & (H3 & H4) & (H5 & H6)).
  assert (Hin : ∀ a b d, west c ≤ a ≤ east c → south c ≤ b ≤ north c →
                          bottom c ≤ d ≤ top c →
                          (west t ≤ a ≤ east t) ∧ (south t ≤ b ≤ north t)
                          ∧ (bottom t ≤ d ≤ top t)).
  { intros a b d Ha Hb Hd. apply (Hsub (a, b, d)). simpl. done. }
  assert (Hx : west c ≤ x ≤ east c) by (split; qc_lra).
  assert (Hy : south c ≤ y ≤ north c) by (split; qc_lra).
  assert (Hz : bottom c ≤ z ≤ top c) by (split; qc_lra).
  assert (Hw : west c ≤ west c ≤ east c) by (split; qc_lra).
  assert (He : west c ≤ east c ≤ east c) by (split; qc_lra).
  assert (Hs : south c ≤ south c ≤ north c) by (split; qc_lra).
  assert (Hn : south c ≤ north c ≤ north c) by (split; qc_lra).
  assert (Hb : bottom c ≤ bottom c ≤ top c) by (split; qc_lra).
  assert (Ht : bottom c ≤ top c ≤ top c) by (split; qc_lra).
  destruct (Hin _ _ _ Hw Hy Hz) as ((? & _) & _).
  destruct (Hin _ _ _ He Hy Hz) as ((_ & ?) & _).
  destruct (Hin _ _ _ Hx Hs Hz) as (_ & (? & _) & _).
  destruct (Hin _ _ _ Hx Hn Hz) as (_ & (_ & ?) & _).
  destruct (Hin _ _ _ Hx Hy Hb) as (_ & _ & (? & _)).
  destruct (Hin _ _ _ Hx Hy Ht) as (_ & _ & (_ & ?)).
  repeat split; qc_lra.
Qed.

Lemma disjoint_interiors_sym (a b : Tesseroid) :
  disjoint_interiors a b → disjoint_interiors b a.
Proof. intros Hab p [Hb Ha]. by apply (Hab p). Qed.

Lemma disjoint_interiors_mono (a b c : Tesseroid) :
  (∀ q, in_box q c → in_box q a) →
  disjoint_interiors a b → disjoint_interiors c b.
Proof.
  intros Hsub Hab p [Hc Hb]. apply (Hab p). split; [|done].
  by eapply interior_mono.
Qed.

Lemma ForallOrdPairs_app {A : Type} (R : A → A → Prop) (l1 l2 : list A) :
  ForallOrdPairs R (l1 ++ l2)
  ↔ ForallOrdPairs R l1 ∧ ForallOrdPairs R l2
    ∧ (∀ x y, x ∈ l1 → y ∈ l2 → R x y).
Proof.
  induction l1 as [|a l1 IH]; simpl.
  - split; [intros ?; split_and!; [constructor | done |] | by intros (_ & ? & _)].
    intros x y Hx. by apply elem_of_nil in Hx.
  - split.
    + inversion 1 as [|? ? Ha Hl]; subst. apply IH in Hl as (H1 & H2 & H3).
      apply Forall_app in Ha as [Ha1 Ha2].
      split_and!; [by constructor | done |].
      intros x y [->|Hx]%elem_of_cons Hy; [|by apply H3].
      by eapply (proj1 (Forall_forall _ _)) in Ha2.
    + intros (H1 & H2 & H3). inversion H1 as [|? ? Ha Hl]; subst.
      constructor.
      * apply Forall_app. split; [done |]. apply Forall_forall.
        intros y Hy. apply H3; [left | done].
      * apply IH. split_and!; [done | done |].
        intros x y Hx Hy. apply H3; [by right | done].
Qed.

Lemma ForallOrdPairs_Permutation {A : Type} (R : A → A → Prop) (l l' : list A) :
  (∀ x y, R x y → R y x) →
  l ≡ₚ l' → ForallOrdPairs R l → ForallOrdPairs R l'.
Proof.
  intros Hsym. induction 1 as [|x l l' Hp IH|x y l|l l' l'' _ IH1 _ IH2].
  - done.
  - inversion 1; subst. constructor; [by rewrite <-Hp | by apply IH].
  - inversion 1 as [|? ? Hy Hl]; subst.
    inversion Hl as [|? ? Hx Hl']; subst.
    inversion Hy; subst.
    constructor; [constructor; [by apply Hsym | done] |].
    by constructor.
  - intros. by apply IH2, IH1.
Qed.

Lemma tiles_singleton (t : Tesseroid) : tiles t [t].
Proof.
  split.
  - intros p. rewrite Exists_cons, Exists_nil. tauto.
  - constructor; [constructor | constructor].
Qed.

Lemma tiles_Permutation (whole : Tesseroid) (l l' : list Tesseroid) :
  l ≡ₚ l' → tiles whole l → tiles whole l'.
Proof.
  intros Hp [Hcover Hdisj]. split.
  - intros p. rewrite Hcover. by rewrite Hp.
  - eapply ForallOrdPairs_Permutation; eauto using disjoint_interiors_sym.
Qed.

Lemma tiles_sub (t : Tesseroid) (cs : list Tesseroid) (c : Tesseroid) :
  tiles t cs → c ∈ cs → ∀ q, in_box q c → in_box q t.
Proof.
  intros [Hcover _] Hc q Hq. apply Hcover, Exists_exists. eauto.
Qed.

(** Replacing one part by a partition of it gives a partition again. *)
Lemma tiles_refine (whole t : Tesseroid) (l1 l2 cs : list Tesseroid) :
  tiles whole (l1 ++ t :: l2) → tiles t cs → tiles whole (l1 ++ cs ++ l2).
Proof.
  intros [Hcover Hdisj] Ht. split.
  - intros p. rewrite Hcover, !Exists_app, Exists_cons.
    destruct Ht as [Hc _]. rewrite (Hc p). tauto.
  - apply ForallOrdPairs_app in Hdisj as (H1 & H2 & H3).
    inversion H2 as [|? ? Ht2 Hl2]; subst.
    apply ForallOrdPairs_app. split_and!; [done | |].
    + apply ForallOrdPairs_app. split_and!; [by destruct Ht | done |].
      intros c y Hc Hy. eapply disjoint_interiors_mono; [by eapply tiles_sub |].
      by eapply (proj1 (Forall_forall _ _)) in Ht2.
    + intros x y Hx [Hy|Hy]%elem_of_app.
      * apply disjoint_interiors_sym.
        eapply disjoint_interiors_mono; [by eapply tiles_sub |].
        apply disjoint_interiors_sym, H3; [done | left].
      * apply H3; [done | by right].
Qed.

(** Partitioning every part of a partition gives a partition. *)
Lemma tiles_bind (whole : Tesseroid) (cs : list Tesseroid)
    (f : Tesseroid → list Tesseroid) :
  tiles whole cs → (∀ c, c ∈ cs → tiles c (f c)) → tiles whole (cs ≫= f).
Proof.
  intros [Hcover Hdisj] Hf. split.
  - intros p. rewrite Hcover, !Exists_exists. split.
    + intros (c & Hc & Hp). destruct (Hf c Hc) as [Hcc _].
      apply Hcc, Exists_exists in Hp as (x & Hx & Hp).
      exists x. split; [|done]. apply list_elem_of_bind. eauto.
    + intros (x & Hx & Hp). apply list_elem_of_bind in Hx as (c & Hx & Hc).
      exists c. split; [done |]. exact (tiles_sub c (f c) x (Hf c Hc) Hx p Hp).
  - clear Hcover. induction cs as [|c cs IH]; csimpl; [constructor |].
    inversion Hdisj as [|? ? Hc Hcs]; subst.
    apply ForallOrdPairs_app. split_and!.
    + apply Hf. left.
    + apply IH; [done |]. intros c' Hc'. apply Hf. by right.
    + intros x y Hx Hy. apply list_elem_of_bind in Hy as (c' & Hy & Hc').
      eapply disjoint_interiors_mono; [eapply tiles_sub; [apply Hf; left | done] |].
      apply disjoint_interiors_sym.
      eapply disjoint_interiors_mono;
        [eapply tiles_sub; [apply Hf; by right | done] |].
      apply disjoint_interiors_sym.
      by eapply (proj1 (Forall_forall _ _)) in Hc.
Qed.

(** ** The children of a tesseroid partition it *)

Lemma children_nested (t : Tesseroid) (n_lon n_lat n_rad : Z) :
  children t n_lon n_lat n_rad
  = lon_parts t n_lon ≫= λ t1, lat_parts t1 n_lat ≫= λ t2, rad_parts t2 n_rad.
Proof.
  unfold children, lon_parts. rewrite bind_map_list.
  apply list_bind_ext; [|done]. intros lon.
  unfold lat_parts. simpl. rewrite bind_map_list.
  apply list_bind_ext; [|done]. intros lat.
  unfold rad_parts. simpl.
  induction (subdivisions (bottom t) (top t) n_rad) as [|rad l IH];
    csimpl; [done | by f_equal].
Qed.

Ltac two_parts :=
  simpl; split;
  [ intros [[x y] z]; rewrite !Exists_cons, Exists_nil;
    unfold in_box; simpl
  | repeat constructor; intros [[x y] z]; unfold in_interior; simpl ].

Lemma tiles_lon_parts (t : Tesseroid) (n : Z) :
  (n = 1 ∨ n = 2)%Z → tiles t (lon_parts t n).
Proof.
  unfold lon_parts. intros [-> | ->].
  - rewrite subdivisions_1. destruct t. apply tiles_singleton.
  - rewrite subdivisions_2. two_parts.
    + rewrite (halves_cover (west t) (east t) x). tauto.
    + intros [(? & _) (? & _)]. by eapply halves_disjoint.
Qed.

Lemma tiles_lat_parts (t : Tesseroid) (n : Z) :
  (n = 1 ∨ n = 2)%Z → tiles t (lat_parts t n).
Proof.
  unfold lat_parts. intros [-> | ->].
  - rewrite subdivisions_1. destruct t. apply tiles_singleton.
  - rewrite subdivisions_2. two_parts.
    + rewrite (halves_cover (south t) (north t) y). tauto.
    + intros [(_ & ? & _) (_ & ? & _)]. by eapply halves_disjoint.
Qed.

Lemma tiles_rad_parts (t : Tesseroid) (n : Z) :
  (n = 1 ∨ n = 2)%Z → tiles t (rad_parts t n).
Proof.
  unfold rad_parts. intros [-> | ->].
  - rewrite subdivisions_1. destruct t. apply tiles_singleton.
  - rewrite subdivisions_2. two_parts.
    + rewrite (halves_cover (bottom t) (top t) z). tauto.
    + intros [(_ & _ & ?) (_ & _ & ?)]. by eapply halves_disjoint.
Qed.

(** The children pushed by a split are a partition of the parent. *)
Lemma tiles_children (t : Tesseroid) (n_lon n_lat n_rad : Z) :
  (n_lon = 1 ∨ n_lon = 2)%Z → (n_lat = 1 ∨ n_lat = 2)%Z →
  (n_rad = 1 ∨ n_rad = 2)%Z →
  tiles t (children t n_lon n_lat n_rad).
Proof.
  intros Hlon Hlat Hrad. rewrite children_nested.
  apply tiles_bind; [by apply tiles_lon_parts |]. intros t1 _.
  apply tiles_bind; [by apply tiles_lat_parts |]. intros t2 _.
  by apply tiles_rad_parts.
Qed.

End Geometry.

(** ** The adaptive discretization: iteration, overflow, partition *)

Section AdaptiveDiscretizationProperties.
Context `{Collaborators}.
Local Open Scope Qc_scope.
Implicit Types (st : ad_state) (t : Tesseroid).

Lemma subdivisions_halves (lo hi : Qc) (n : Z) :
  (n = 1 ∨ n = 2)%Z →
  subdivisions lo hi n = halves lo hi (bool_decide (n = 2%Z)).
Proof.
  intros [-> | ->]; [apply subdivisions_1 | apply subdivisions_2].
Qed.

Lemma ltb_spec (x y : Qc) : ltb x y = true ↔ x < y.
Proof. unfold ltb. apply bool_decide_eq_true. Qed.

Lemma gtb_spec (x y : Qc) : gtb x y = true ↔ y < x.
Proof. unfold gtb. apply bool_decide_eq_true. Qed.

(** The counts of [check_inequality], read off the code. *)
Lemma check_inequality_spec coordinates t ratio radial n_lon n_lat n_rad :
  check_inequality coordinates t ratio radial = (n_lon, n_lat, n_rad) →
  let d := _distance_tesseroid_point coordinates t in
  (n_lon = 2%Z ↔ d / (_tesseroid_dimensions t).1.1 < ratio)
  ∧ (n_lat = 2%Z ↔ d / (_tesseroid_dimensions t).1.2 < ratio)
  ∧ (n_rad = 2%Z ↔ d / (_tesseroid_dimensions t).2 < ratio ∧ radial = true).
Proof.
  unfold check_inequality.
  destruct (_tesseroid_dimensions t) as [[l_lon l_lat] l_rad]. simpl.
  intros Heq. injection Heq as <- <- <-. split_and!.
  - rewrite <-ltb_spec. by destruct (ltb _ _).
  - rewrite <-ltb_spec. by destruct (ltb _ _).
  - rewrite <-ltb_spec. destruct (ltb _ _), radial; simpl; intuition discriminate.
Qed.



(** The pending rows and the output rows are a partition of the input
    tesseroid, before and after every iteration. *)
Lemma ad_iterate_tiles coordinates ratio radial whole k st st' :
  ad_wf st → tiles whole (pending st ++ output st) →
  ad_iterate k coordinates ratio radial st = Ok st' →
  tiles whole (pending st' ++ output st').
Proof.
  intros Hwf Htiles Hk.
  destruct (ad_iterate_invariant coordinates ratio radial
              (λ s, tiles whole (pending s ++ output s)) k st st')
    as [? _]; try done.
  clear. intros s s' Hs Hwf Htop Hstep.
  destruct (pending_top s Hwf Htop) as (t & _ & Hpend).
  destruct (check_inequality coordinates t ratio radial)
    as [[n_lon n_lat] n_rad] eqn:Hcheck.
  pose proof (check_inequality_range _ _ _ _ _ _ _ Hcheck) as (? & ? & ?).
  destruct (ad_step_inv _ _ _ _ _ _ _ _ _ _ Hpend Hcheck Hstep)
    as [(_ & _ & s1 & [= <-] & Hp' & Ho & _)
       | [(_ & _ & [=]) | [(_ & _ & s1 & [= <-] & Hp' & Ho & _) | (_ & _ & [=])]]].
  - rewrite Hp', Ho, <-app_assoc. rewrite Hpend, <-app_assoc in Hs.
    eapply tiles_refine; [exact Hs |]. by apply tiles_children.
  - rewrite Hp', Ho. rewrite Hpend in Hs.
    eapply tiles_Permutation; [|exact Hs].
    rewrite <-!app_assoc. apply Permutation_app_head, Permutation_app_comm.
Qed.

(** C10.  The tesseroids on the stack together with those in the output
    buffer are a partition of the input tesseroid at every iteration of
    the loop of [_adaptive_discretization]: they cover its (longitude,
    latitude, radius) box, nothing of them lies outside it, and no two of
    them overlap in their interiors.  The children that replace a parent
    are such a partition of the parent.  So, when the function returns, the
    small tesseroids it returns are a partition of the input tesseroid. *)
Theorem adaptive_discretization_partition coordinates tesseroid ratio
    (stack small_tesseroids : array) radial :
  (∀ st0 k st,
     ad_init tesseroid stack small_tesseroids = Ok st0 →
     ad_iterate k coordinates ratio radial st0 = Ok st →
     tiles tesseroid (pending st ++ output st))
  ∧ (∀ t n_lon n_lat n_rad,
       check_inequality coordinates t ratio radial = (n_lon, n_lat, n_rad) →
       tiles t (children t n_lon n_lat n_rad))
  ∧ (∀ n_splits stack' small_tesseroids',
       _adaptive_discretization coordinates tesseroid ratio stack
         small_tesseroids radial
       = Ok (n_splits, stack', small_tesseroids') →
       tiles tesseroid (take (Z.to_nat n_splits) small_tesseroids')).
Proof.
  assert (Hinv : ∀ st0 k st,
            ad_init tesseroid stack small_tesseroids = Ok st0 →
            ad_iterate k coordinates ratio radial st0 = Ok st →
            tiles tesseroid (pending st ++ output st) ∧ ad_wf st).
  { intros st0 k st Hinit Hk.
    destruct (decide (1 ≤ length stack)%nat) as [Hlen|Hlen].
    - destruct (ad_init_Ok tesseroid stack small_tesseroids Hlen)
        as (st1 & Hinit1 & Hp & Ho & Hwf & _).
      rewrite Hinit in Hinit1. injection Hinit1 as <-. split.
      + eapply ad_iterate_tiles; [done | | done].
        rewrite Hp, Ho. apply tiles_singleton.
      + by eapply ad_iterate_wf.
    - unfold ad_init in Hinit. rewrite setitem_ge in Hinit by lia. done. }
  split_and!.
  - intros st0 k st Hinit Hk. by destruct (Hinv st0 k st).
  - intros t n_lon n_lat n_rad Hcheck.
    pose proof (check_inequality_range _ _ _ _ _ _ _ Hcheck) as (? & ? & ?).
    by apply tiles_children.
  - intros n stack' small' Hrun. unfold _adaptive_discretization in Hrun.
    destruct (ad_init tesseroid stack small_tesseroids) as [st0|] eqn:Hinit;
      simpl in Hrun; [|done].
    destruct (ad_loop _ _ _ _ st0) as [st|] eqn:Hloop; simpl in Hrun; [|done].
    injection Hrun as <- <- <-.
    apply ad_loop_Ok in Hloop as [Hk Htop].
    destruct (Hinv st0 _ st eq_refl Hk) as [Htiles [Hs _]].
    replace (pending st) with (@nil Tesseroid) in Htiles; [done |].
    unfold pending. by replace (Z.to_nat (ad_stack_top st + 1)) with 0%nat by lia.
Qed.


Lemma output_length st :
  ad_wf st → Z.of_nat (length (output st)) = ad_n_splits st.
Proof. intros [_ Hn]. unfold output. rewrite length_take. lia. Qed.

(** The run of [_adaptive_discretization], from the state it starts in. *)
Lemma adaptive_discretization_run coordinates tesseroid ratio
    (stack small_tesseroids : array) radial st0 :
  ad_init tesseroid stack small_tesseroids = Ok st0 →
  _adaptive_discretization coordinates tesseroid ratio stack small_tesseroids
    radial
  = (st ← ad_loop (ad_fuel stack small_tesseroids) coordinates ratio radial st0;
     Ok (ad_n_splits st, ad_stack st, ad_small_tesseroids st)).
Proof. intros Hinit. unfold _adaptive_discretization. by rewrite Hinit. Qed.




End AdaptiveDiscretizationProperties.



Example adaptive_discretization_stack_overflow :
  _adaptive_discretization (H := test_collaborators) test_point
    test_tesseroid (Qc_of_Z 1000) test_stack test_small_tesseroids false
  = Raise StackOverflow.
Proof. by vm_compute. Qed.

(** The partition theorem on a run that returns: the test tesseroid is
    cut into four slices along the longitude. *)
Lemma adaptive_discretization_partition_witness :
  ∃ stack' small_tesseroids',
    _adaptive_discretization (H := test_collaborators) test_point
      test_tesseroid (Q2Qc 1) test_stack test_small_tesseroids false
    = Ok (4%Z, stack', small_tesseroids')
    ∧ tiles test_tesseroid (take 4 small_tesseroids').
Proof.
  destruct (_adaptive_discretization (H := test_collaborators) test_point
              test_tesseroid (Q2Qc 1) test_stack test_small_tesseroids false)
    as [[[n stack'] small']|e] eqn:Hrun.
  - assert (Hn : n = 4%Z).
    { apply (f_equal (λ r, match r with Ok (n, _, _) => n | _ => 0%Z end))
        in Hrun. vm_compute in Hrun. done. }
    subst n. exists stack', small'. split; [done |].
    destruct (adaptive_discretization_partition (H := test_collaborators)
                test_point test_tesseroid (Q2Qc 1) test_stack
                test_small_tesseroids false) as (_ & _ & Hfinal).
    exact (Hfinal 4%Z stack' small' Hrun).
  - apply (f_equal (λ r, match r with Ok _ => true | _ => false end)) in Hrun.
    vm_compute in Hrun. done.
Defined.

(** ** The Gauss-Legendre quadrature *)

Section QuadratureProperties.
Context `{Collaborators}.
Local Open Scope Qc_scope.





Lemma sum_list_app (xs ys : list Qc) :
  sum_list (xs ++ ys) = sum_list xs + sum_list ys.
Proof.
  unfold sum_list. induction xs as [|x xs IH]; simpl.
  - by rewrite Qcplus_0_l.
  - by rewrite IH, Qcplus_assoc.
Qed.
















End QuadratureProperties.



(** ** Validation of tesseroids and longitude continuity *)

Section ValidationProperties.
Local Open Scope Qc_scope.

Lemma Qcfloor_unit (x : Qc) : 0 ≤ x → x < 1 → Qcfloor x = 0%Z.
Proof.
  intros H0 H1. unfold Qcfloor.
  pose proof (Qfloor_le (this x)) as Hle.
  pose proof (Qlt_floor (this x)) as Hlt.
  assert (Hlo : (0 ≤ Qfloor (this x))%Z).
  { change 0%Z with (Qfloor 0). by apply Qfloor_resp_le. }
  assert (Hhi : (Qfloor (this x) < 1)%Z).
  { rewrite Zlt_Qlt. eapply Qle_lt_trans; [exact Hle | exact H1]. }
  lia.
Qed.

(** [x % m] lies in [0, m) for a positive [m]. *)
Lemma pymod_range (x m : Qc) : 0 < m → 0 ≤ pymod x m ∧ pymod x m < m.
Proof.
  intros Hm. unfold pymod, Qcfloor.
  pose proof (Qfloor_le (this (x / m))) as Hle.
  pose proof (Qlt_floor (this (x / m))) as Hlt.
  rewrite inject_Z_plus in Hlt. change (inject_Z 1) with 1%Q in Hlt.
  set (z := Qfloor (this (x / m))) in *.
  rewrite this_div in Hle, Hlt.
  assert (Hm' : (0 < this m)%Q) by exact Hm.
  assert (Hx : (this x == this x * / this m * this m)%Q).
  { field. intros Hz. rewrite Hz in Hm'. by apply Qlt_irrefl in Hm'. }
  assert (H1 : (inject_Z z * this m <= this x)%Q).
  { rewrite Hx. apply Qmult_le_compat_r; [done | by apply Qlt_le_weak]. }
  assert (H2 : (this x < (inject_Z z + 1) * this m)%Q).
  { rewrite Hx at 1. by apply Qmult_lt_compat_r. }
  split.
  - unfold Qcle. qc_push. lra.
  - unfold Qclt. qc_push. lra.
Qed.

Lemma Qcdiv_unit (x m : Qc) : 0 ≤ x → x < m → 0 ≤ x / m ∧ x / m < 1.
Proof.
  intros H0 Hm.
  assert (Hpos : (0 < this m)%Q) by (eapply Qle_lt_trans; [exact H0 | exact Hm]).
  assert (Hinv : (0 < / this m)%Q) by (by apply Qinv_lt_0_compat).
  split.
  - unfold Qcle. rewrite this_div.
    apply Qmult_le_0_compat; [exact H0 | by apply Qlt_le_weak].
  - unfold Qclt. rewrite this_div.
    assert (H1 : (this 1 == this m * / this m)%Q).
    { change (this 1) with 1%Q. field. intros Hz. rewrite Hz in Hpos.
      by apply Qlt_irrefl in Hpos. }
    rewrite H1. by apply Qmult_lt_compat_r.
Qed.

(** [x % m] is [x] when [x] is in [0, m) already. *)
Lemma pymod_small (x m : Qc) : 0 ≤ x → x < m → pymod x m = x.
Proof.
  intros H0 Hm. unfold pymod.
  destruct (Qcdiv_unit x m H0 Hm) as [Hd0 Hd1].
  rewrite (Qcfloor_unit _ Hd0 Hd1).
  replace (Qc_of_Z 0) with (Q2Qc 0) by (by apply Qc_is_canon). ring.
Qed.

(** [to_180] maps into [-180, 180) and is the identity there. *)
Lemma to_180_range (x : Qc) :
  Qc_of_Z (-180) ≤ to_180 x ∧ to_180 x < Qc_of_Z 180.
Proof.
  unfold to_180.
  destruct (pymod_range (x + Qc_of_Z 180) (Qc_of_Z 360)) as [H0 H1]; [done |].
  set (y := pymod (x + Qc_of_Z 180) (Qc_of_Z 360)) in *.
  split; qc_lra.
Qed.

Lemma to_180_fixed (x : Qc) :
  Qc_of_Z (-180) ≤ x → x < Qc_of_Z 180 → to_180 x = x.
Proof.
  intros H0 H1. unfold to_180. rewrite pymod_small; [ring | qc_lra | qc_lra].
Qed.

Lemma to_180_idempotent (x : Qc) : to_180 (to_180 x) = to_180 x.
Proof. destruct (to_180_range x). by apply to_180_fixed. Qed.

(** C7.  Longitude continuity is idempotent: applying the transformation
    (both bounds of every tesseroid with [west > east] are remapped by
    [x -> ((x + 180) mod 360) - 180], the other tesseroids are left as
    they are) twice gives what applying it once gives.  This holds for
    every collection, so for those with bounds in [-180, 360]. *)
Theorem longitude_continuity_idempotent (tesseroids : array) :
  _longitude_continuity (_longitude_continuity tesseroids)
  = _longitude_continuity tesseroids.
Proof.
  unfold _longitude_continuity. rewrite map_map. apply map_ext. intros t.
  destruct (gtb (west t) (east t)) eqn:Hwe; simpl.
  - rewrite !to_180_idempotent. by destruct (gtb (to_180 _) _).
  - by rewrite Hwe.
Qed.


Lemma ltb_false (x y : Qc) : y ≤ x → ltb x y = false.
Proof. intros Hle. unfold ltb. apply bool_decide_eq_false_2. by apply Qcle_not_lt. Qed.

Lemma gtb_false (x y : Qc) : x ≤ y → gtb x y = false.
Proof. intros Hle. unfold gtb. apply bool_decide_eq_false_2. by apply Qcle_not_lt. Qed.

Lemma existsb_elem {A : Type} (f : A → bool) (l : list A) (x : A) :
  x ∈ l → f x = true → existsb f l = true.
Proof.
  intros Hx Hf. apply existsb_exists. exists x. split; [|done].
  by apply list_elem_of_In.
Qed.

Lemma reject_any_Raise check invalid (tesseroids : array) :
  existsb invalid tesseroids = true →
  reject_any check invalid tesseroids
  = Raise (InvalidTesseroids check (List.filter invalid tesseroids)).
Proof. intros Hex. unfold reject_any. by rewrite Hex. Qed.

(** A tesseroid that fails one of the checks made before the longitude
    continuity makes [_check_tesseroids] raise. *)
Lemma check_tesseroids_rejects (tesseroids : array) (t : Tesseroid) :
  t ∈ tesseroids →
  gtb (south t) (Qc_of_Z 90) = true
  ∨ ltb (bottom t) 0 = true
  ∨ gtb (bottom t) (top t) = true
  ∨ gtb (east t) (Qc_of_Z 360) = true →
  ∃ check invalid,
    _check_tesseroids tesseroids = Raise (InvalidTesseroids check invalid).
Proof.
  intros Ht Hbad. unfold _check_tesseroids, reject_any.
  repeat match goal with
  | |- context [if existsb ?f tesseroids then _ else _] =>
      let E := fresh "E" in
      destruct (existsb f tesseroids) eqn:E; simpl; [by eauto |];
      apply not_true_iff_false in E;
      pose proof (λ Hf, E (existsb_elem f tesseroids t Ht Hf))
  end.
  exfalso. destruct Hbad as [Hb | [Hb | [Hb | Hb]]];
    match goal with
    | Hn : _ = true → False |- _ => apply Hn; rewrite Hb; by rewrite ?orb_true_r
    end.
Qed.

Lemma to_180_350 : to_180 (Qc_of_Z 350) = Qc_of_Z (-10).
Proof. apply Qc_is_canon. by vm_compute. Qed.

Lemma to_180_10 : to_180 (Qc_of_Z 10) = Qc_of_Z 10.
Proof. apply Qc_is_canon. by vm_compute. Qed.

(** C6.  [_check_tesseroids] raises an error on every collection that
    holds a tesseroid with [south = 91] (the error on the latitudes), or
    one with [bottom = -1], or one with [bottom = 10] and [top = 5], or
    one with [west = 0] and [east = 400]; and it accepts a tesseroid with
    [west = 350] and [east = 10] whose other bounds are valid, returning
    it with the longitude continuity applied: west is -10 and east is 10,
    so east is greater than west. *)
Theorem check_tesseroids_examples :
  (∀ (tesseroids : array) t,
     t ∈ tesseroids → south t = Qc_of_Z 91 →
     ∃ invalid, _check_tesseroids tesseroids
                = Raise (InvalidTesseroids LatitudeOutOfRange invalid)
                ∧ t ∈ invalid)
  ∧ (∀ (tesseroids : array) t,
       t ∈ tesseroids → bottom t = Qc_of_Z (-1) →
       ∃ check invalid,
         _check_tesseroids tesseroids = Raise (InvalidTesseroids check invalid))
  ∧ (∀ (tesseroids : array) t,
       t ∈ tesseroids → bottom t = Qc_of_Z 10 → top t = Qc_of_Z 5 →
       ∃ check invalid,
         _check_tesseroids tesseroids = Raise (InvalidTesseroids check invalid))
  ∧ (∀ (tesseroids : array) t,
       t ∈ tesseroids → west t = Qc_of_Z 0 → east t = Qc_of_Z 400 →
       ∃ check invalid,
         _check_tesseroids tesseroids = Raise (InvalidTesseroids check invalid))
  ∧ (∀ s n b tp,
       Qc_of_Z (-90) ≤ s → s ≤ n → n ≤ Qc_of_Z 90 → 0 ≤ b → b ≤ tp →
       _check_tesseroids [Tess (Qc_of_Z 350) (Qc_of_Z 10) s n b tp]%list
       = Ok [Tess (Qc_of_Z (-10)) (Qc_of_Z 10) s n b tp]%list
       ∧ Qc_of_Z (-10) < Qc_of_Z 10).
Proof.
  split_and!.
  - intros tesseroids t Ht Hs. unfold _check_tesseroids.
    rewrite (reject_any_Raise LatitudeOutOfRange).
    + eexists. split; [reflexivity |]. apply list_elem_of_In, filter_In.
      split; [by apply list_elem_of_In |].
      rewrite Hs. change (gtb (Qc_of_Z 91) (Qc_of_Z 90)) with true.
      by rewrite orb_true_r.
    + eapply existsb_elem; [done |].
      rewrite Hs. change (gtb (Qc_of_Z 91) (Qc_of_Z 90)) with true.
      by rewrite orb_true_r.
  - intros tesseroids t Ht Hb. apply (check_tesseroids_rejects _ t Ht).
    right. left. by rewrite Hb.
  - intros tesseroids t Ht Hb Htp. apply (check_tesseroids_rejects _ t Ht).
    right. right. left. by rewrite Hb, Htp.
  - intros tesseroids t Ht Hw He. apply (check_tesseroids_rejects _ t Ht).
    right. right. right. by rewrite He.
  - intros s n b tp Hs Hsn Hn Hb Hbt. split; [|done].
    assert (Hs90 : s ≤ Qc_of_Z 90) by (by etrans).
    assert (Hn90 : Qc_of_Z (-90) ≤ n) by (by etrans).
    assert (Htp : 0 ≤ tp) by (by etrans).
    assert (Hc : ltb (Qc_of_Z 350) (Qc_of_Z (-180)) = false
                 ∧ gtb (Qc_of_Z 350) (Qc_of_Z 360) = false
                 ∧ ltb (Qc_of_Z 10) (Qc_of_Z (-180)) = false
                 ∧ gtb (Qc_of_Z 10) (Qc_of_Z 360) = false
                 ∧ gtb (Qc_of_Z 350) (Qc_of_Z 10) = true
                 ∧ gtb (Qc_of_Z (-10)) (Qc_of_Z 10) = false
                 ∧ gtb (Qc_of_Z 10 - Qc_of_Z (-10)) (Qc_of_Z 360) = false)
      by (by vm_compute).
    destruct Hc as (C1 & C2 & C3 & C4 & C5 & C6 & C7).
    unfold _check_tesseroids, reject_any, _longitude_continuity.
    repeat (progress (simpl;
      rewrite ?(ltb_false s), ?(gtb_false s), ?(ltb_false n), ?(gtb_false n),
        ?(gtb_false s n), ?(ltb_false b), ?(ltb_false tp), ?(gtb_false b tp),
        ?C1, ?C2, ?C3, ?C4, ?C5, ?to_180_350, ?to_180_10, ?C6, ?C7 by done)).
    done.
Qed.

End ValidationProperties.

(** The accepted tesseroid of C6, with the latitudes and radii of the test
    tesseroid. *)
Lemma check_tesseroids_examples_witness :
  _check_tesseroids
    [Tess (Qc_of_Z 350) (Qc_of_Z 10) (Qc_of_Z 1) (Qc_of_Z 3) (Qc_of_Z 1)
          (Qc_of_Z 2)]
  = Ok [Tess (Qc_of_Z (-10)) (Qc_of_Z 10) (Qc_of_Z 1) (Qc_of_Z 3)
             (Qc_of_Z 1) (Qc_of_Z 2)].
Proof.
  destruct check_tesseroids_examples as (_ & _ & _ & _ & Haccept).
  by apply Haccept.
Defined.

(** ** Density-based discretization *)

Section DensityProperties.
Context `{Collaborators}.
Local Open Scope Qc_scope.



End DensityProperties.



(** ** The driver *)

Section DriverProperties.
Context `{Collaborators}.
Local Open Scope Qc_scope.

Lemma check_tesseroids_length (tesseroids tesseroids' : array) :
  _check_tesseroids tesseroids = Ok tesseroids' →
  length tesseroids' = length tesseroids.
Proof.
  unfold _check_tesseroids, reject_any.
  repeat match goal with
  | |- context [if existsb ?f ?l then Raise _ else _] =>
      destruct (existsb f l); simpl; [done |]
  end.
  intros [= <-]. destruct (existsb _ _); [|done].
  unfold _longitude_continuity. by rewrite length_map.
Qed.




End DriverProperties.





(** * Further properties *)

Section ValidationSoundness.
Local Open Scope Qc_scope.

Lemma ltb_false_le (x y : Qc) : ltb x y = false → y ≤ x.
Proof. unfold ltb. intros Hb. apply bool_decide_eq_false in Hb. by apply Qcnot_lt_le. Qed.

Lemma gtb_false_le (x y : Qc) : gtb x y = false → x ≤ y.
Proof. unfold gtb. intros Hb. apply bool_decide_eq_false in Hb. by apply Qcnot_lt_le. Qed.

Lemma existsb_false_Forall {A : Type} (f : A → bool) (l : list A) :
  existsb f l = false ↔ Forall (λ x, f x = false) l.
Proof.
  induction l as [|x l IH]; simpl.
  - split; [constructor | done].
  - rewrite orb_false_iff, IH, Forall_cons. done.
Qed.

(** The rows that [_longitude_continuity] leaves alone, and what it does to
    the others. *)
Lemma longitude_continuity_rows (tesseroids : array) :
  Forall2 (λ t t',
      south t' = south t ∧ north t' = north t
      ∧ bottom t' = bottom t ∧ top t' = top t
      ∧ (west t ≤ east t → t' = t)
      ∧ (east t < west t →
         west t' = to_180 (west t) ∧ east t' = to_180 (east t)))
    tesseroids (_longitude_continuity tesseroids).
Proof.
  unfold _longitude_continuity.
  induction tesseroids as [|t ts IH]; simpl; constructor; [|done].
  destruct (gtb (west t) (east t)) eqn:Hwe; simpl.
  - apply gtb_spec in Hwe. split_and!; try done.
    intros Hle. by apply Qcle_not_lt in Hle.
  - apply gtb_false_le in Hwe. split_and!; try done.
    intros Hlt. by apply Qcle_not_lt in Hwe.
Qed.


Lemma ltb_false_iff (x y : Qc) : ltb x y = false ↔ y ≤ x.
Proof. split; [apply ltb_false_le | apply ltb_false]. Qed.

Lemma gtb_false_iff (x y : Qc) : gtb x y = false ↔ x ≤ y.
Proof. split; [apply gtb_false_le | apply gtb_false]. Qed.

(** [_check_tesseroids] returns exactly when every row passes the checks
    made before the longitude continuity and every row of the collection
    it then holds has [west <= east] and spans at most one turn. *)
Lemma check_tesseroids_Ok_iff (tesseroids tesseroids' : array) :
  _check_tesseroids tesseroids = Ok tesseroids'
  ↔ Forall valid_before_continuity tesseroids
    ∧ tesseroids'
      = (if existsb (λ t, gtb (west t) (east t)) tesseroids
         then _longitude_continuity tesseroids else tesseroids)
    ∧ Forall (λ t, west t ≤ east t ∧ east t - west t ≤ Qc_of_Z 360)
        tesseroids'.
Proof.
  unfold _check_tesseroids, reject_any.
  set (ts1 := if existsb (λ t, gtb (west t) (east t)) tesseroids
              then _longitude_continuity tesseroids else tesseroids).
  repeat match goal with
  | |- context [if existsb ?f ?l then Raise _ else _] =>
      let E := fresh "E" in
      destruct (existsb f l) eqn:E; cbn [mbind outcome_bind];
      [ apply not_false_iff_true in E; rewrite existsb_false_Forall in E
      | rewrite existsb_false_Forall in E ]
  end;
  (split;
   [ try discriminate; intros Heq; injection Heq as <-
   | intros (Hpre & -> & Hpost) ]);
  try (exfalso;
       match goal with
       | E : ¬ Forall _ ?l |- _ =>
           apply E; first [ eapply Forall_impl; [exact Hpre |]
                          | eapply Forall_impl; [exact Hpost |] ];
           intros t; unfold valid_before_continuity;
           rewrite ?orb_false_iff, ?ltb_false_iff, ?gtb_false_iff; tauto
       end).
  - split_and!; [|done|].
    + apply Forall_forall. intros t Ht.
      repeat match goal with
      | E : Forall _ tesseroids |- _ =>
          apply (proj1 (Forall_forall _ _)) with (x := t) in E; [|done];
          rewrite ?orb_false_iff, ?ltb_false_iff, ?gtb_false_iff in E
      end.
      unfold valid_before_continuity. tauto.
    + apply Forall_forall. intros t Ht.
      repeat match goal with
      | E : Forall _ ts1 |- _ =>
          apply (proj1 (Forall_forall _ _)) with (x := t) in E; [|done];
          rewrite ?gtb_false_iff in E
      end.
      tauto.
  - done.
Qed.

Lemma to_180_shift (x : Qc) :
  ∃ k : Z, to_180 x = x - Qc_of_Z 360 * Qc_of_Z k.
Proof.
  exists (Qcfloor ((x + Qc_of_Z 180) / Qc_of_Z 360)).
  unfold to_180, pymod. ring.
Qed.

Lemma valid_before_after (t : Tesseroid) :
  valid_before_continuity t → west t ≤ east t →
  east t - west t ≤ Qc_of_Z 360 → valid_tesseroid t.
Proof. unfold valid_before_continuity, valid_tesseroid. tauto. Qed.

Lemma valid_after_before (t : Tesseroid) :
  valid_tesseroid t → valid_before_continuity t.
Proof.
  unfold valid_before_continuity, valid_tesseroid.
  intros (? & ? & ? & ? & ? & ? & ? & ? & ?).
  split_and!; try done; qc_lra.
Qed.

Lemma longitude_continuity_valid_before (tesseroids : array) :
  Forall valid_before_continuity tesseroids →
  Forall valid_before_continuity (_longitude_continuity tesseroids).
Proof.
  intros Hpre. unfold _longitude_continuity. apply Forall_map.
  eapply Forall_impl; [exact Hpre |]. intros t Ht. simpl.
  destruct (gtb (west t) (east t)); [|done].
  unfold valid_before_continuity in *. simpl.
  destruct (to_180_range (west t)) as [? ?].
  destruct (to_180_range (east t)) as [? ?].
  destruct Ht as (? & ? & ? & ? & ? & ? & ? & ? & _).
  split_and!; try done; qc_lra.
Qed.

Lemma check_tesseroids_Ok_valid (tesseroids tesseroids' : array) :
  _check_tesseroids tesseroids = Ok tesseroids' →
  Forall valid_tesseroid tesseroids'.
Proof.
  intros Hcheck.
  apply check_tesseroids_Ok_iff in Hcheck as (Hpre & -> & Hpost).
  assert (Hpre' : Forall valid_before_continuity
            (if existsb (λ t, gtb (west t) (east t)) tesseroids
             then _longitude_continuity tesseroids else tesseroids)).
  { destruct (existsb _ _); [by apply longitude_continuity_valid_before | done]. }
  apply Forall_forall. intros t Ht.
  pose proof (proj1 (Forall_forall _ _) Hpre' t Ht) as Hb.
  pose proof (proj1 (Forall_forall _ _) Hpost t Ht) as [? ?].
  by apply valid_before_after.
Qed.

(** What [_check_tesseroids] raises: the error of one of its checks, with
    the rows that fail it; there is at least one. *)
Lemma reject_any_Raise_inv check (invalid : Tesseroid → bool)
    (tesseroids : array) e :
  reject_any check invalid tesseroids = Raise e →
  e = InvalidTesseroids check (List.filter invalid tesseroids)
  ∧ List.filter invalid tesseroids ≠ []%list.
Proof.
  unfold reject_any. destruct (existsb invalid tesseroids) eqn:Hex; [|done].
  intros [= <-]. split; [done |].
  apply existsb_exists in Hex as (t & Ht & Hinv).
  intros Hnil. assert (Hin : In t (List.filter invalid tesseroids))
    by (by apply filter_In).
  rewrite Hnil in Hin. done.
Qed.

(** X1.  Soundness of the validation: the collection [_check_tesseroids]
    returns has as many rows as the input, every row is a valid tesseroid
    (latitudes in [-90, 90] with south <= north, radii with
    0 <= bottom <= top, longitudes in [-180, 360] with west <= east and a
    span of at most 360), and a row differs from the input row in its
    longitudes only, and only if the input row has [west > east]. *)
Theorem check_tesseroids_sound (tesseroids tesseroids' : array) :
  _check_tesseroids tesseroids = Ok tesseroids' →
  length tesseroids' = length tesseroids
  ∧ Forall valid_tesseroid tesseroids'
  ∧ Forall2 (λ t t',
        south t' = south t ∧ north t' = north t
        ∧ bottom t' = bottom t ∧ top t' = top t
        ∧ (west t ≤ east t → t' = t))
      tesseroids tesseroids'.
Proof.
  intros Hcheck. split; [by apply check_tesseroids_length |].
  split; [by eapply check_tesseroids_Ok_valid |].
  apply check_tesseroids_Ok_iff in Hcheck as (Hpre & -> & Hpost).
  destruct (existsb _ _).
  - eapply Forall2_impl; [apply longitude_continuity_rows |].
    simpl. intros t t' (? & ? & ? & ? & ? & _). done.
  - apply Forall2_same_length_lookup_2; [done |].
    intros i t t' Ht Ht'. rewrite Ht in Ht'. by injection Ht' as <-.
Qed.

(** X23.  [_check_tesseroids] raises nothing but the error of one of its
    seven checks, and the error holds the rows that fail the check: there
    is at least one, and they are rows of the collection, with the
    longitude continuity applied for the two checks that come after it. *)
Theorem check_tesseroids_error (tesseroids : array) (e : exn) :
  _check_tesseroids tesseroids = Raise e →
  ∃ check invalid,
    e = InvalidTesseroids check invalid ∧ invalid ≠ []%list
    ∧ (invalid ⊆ tesseroids ∨ invalid ⊆ _longitude_continuity tesseroids).
Proof.
  unfold _check_tesseroids.
  assert (Hsub : ∀ (f : Tesseroid → bool) (ts : array), List.filter f ts ⊆ ts).
  { intros f ts t Ht. apply list_elem_of_In, filter_In in Ht as [Ht _].
    by apply list_elem_of_In. }
  intros Hrun.
  repeat match type of Hrun with
  | mbind _ (reject_any ?c ?f ?ts) = Raise e =>
      destruct (reject_any c f ts) as [[]|e'] eqn:Hr;
        cbn [mbind outcome_bind] in Hrun;
        [clear Hr | injection Hrun as <-;
           apply reject_any_Raise_inv in Hr as [-> Hne];
           eexists _, _; split_and!; [reflexivity | exact Hne |];
           first [ left; apply Hsub
                 | destruct (existsb (λ t, gtb (west t) (east t)) tesseroids);
                   [right; apply Hsub | left; apply Hsub] ]]
  end.
  discriminate Hrun.
Qed.

(** X2.  Completeness of the validation: a collection of valid tesseroids
    is returned as it is. *)
Theorem check_tesseroids_accepts_valid (tesseroids : array) :
  Forall valid_tesseroid tesseroids →
  _check_tesseroids tesseroids = Ok tesseroids.
Proof.
  intros Hvalid.
  assert (Hwe : existsb (λ t, gtb (west t) (east t)) tesseroids = false).
  { apply existsb_false_Forall. eapply Forall_impl; [exact Hvalid |].
    intros t Ht. apply gtb_false. unfold valid_tesseroid in Ht. tauto. }
  apply check_tesseroids_Ok_iff. rewrite Hwe. split_and!; [|done|].
  - eapply Forall_impl; [exact Hvalid |]. apply valid_after_before.
  - eapply Forall_impl; [exact Hvalid |].
    intros t Ht. unfold valid_tesseroid in Ht. tauto.
Qed.

(** X3.  Validation is idempotent: what [_check_tesseroids] returns, it
    accepts and returns unchanged. *)
Theorem check_tesseroids_idempotent (tesseroids tesseroids' : array) :
  _check_tesseroids tesseroids = Ok tesseroids' →
  _check_tesseroids tesseroids' = Ok tesseroids'.
Proof.
  intros Hcheck.
  apply check_tesseroids_Ok_iff in Hcheck as (Hpre & -> & Hpost).
  set (ts1 := if existsb (λ t, gtb (west t) (east t)) tesseroids
              then _longitude_continuity tesseroids else tesseroids) in *.
  assert (Hpre1 : Forall valid_before_continuity ts1).
  { unfold ts1. destruct (existsb _ _);
      [by apply longitude_continuity_valid_before | done]. }
  assert (Hwe : existsb (λ t, gtb (west t) (east t)) ts1 = false).
  { apply existsb_false_Forall. eapply Forall_impl; [exact Hpost |].
    intros t [Ht _]. by apply gtb_false. }
  apply check_tesseroids_Ok_iff. rewrite Hwe. by split_and!.
Qed.

(** X4.  The longitude continuity gives equivalent tesseroids: a row with
    [west <= east] is left as it is; of a row with [west > east] only the
    longitudes change, each by a whole number of turns (a multiple of 360),
    and both end up in [-180, 180). *)
Theorem longitude_continuity_equivalent (tesseroids : array) :
  Forall2 (λ t t',
      south t' = south t ∧ north t' = north t
      ∧ bottom t' = bottom t ∧ top t' = top t
      ∧ (west t ≤ east t → t' = t)
      ∧ (east t < west t →
         (∃ k : Z, west t' = west t - Qc_of_Z 360 * Qc_of_Z k)
         ∧ (∃ k : Z, east t' = east t - Qc_of_Z 360 * Qc_of_Z k)
         ∧ Qc_of_Z (-180) ≤ west t' ∧ west t' < Qc_of_Z 180
         ∧ Qc_of_Z (-180) ≤ east t' ∧ east t' < Qc_of_Z 180))
    tesseroids (_longitude_continuity tesseroids).
Proof.
  eapply Forall2_impl; [apply longitude_continuity_rows |].
  simpl. intros t t' (? & ? & ? & ? & ? & Hremap).
  split_and!; try done.
  intros Hlt. destruct (Hremap Hlt) as [-> ->].
  destruct (to_180_range (west t)) as [? ?].
  destruct (to_180_range (east t)) as [? ?].
  split_and!; try done; apply to_180_shift.
Qed.

End ValidationSoundness.

Lemma check_tesseroids_sound_witness :
  Forall valid_tesseroid
    [Tess (Qc_of_Z (-10)) (Qc_of_Z 10) (Qc_of_Z 1) (Qc_of_Z 3)
          (Qc_of_Z 1) (Qc_of_Z 2)].
Proof.
  assert (Hrun : _check_tesseroids
                   [Tess (Qc_of_Z 350) (Qc_of_Z 10) (Qc_of_Z 1) (Qc_of_Z 3)
                         (Qc_of_Z 1) (Qc_of_Z 2)]
                 = Ok [Tess (Qc_of_Z (-10)) (Qc_of_Z 10) (Qc_of_Z 1)
                            (Qc_of_Z 3) (Qc_of_Z 1) (Qc_of_Z 2)])
    by (apply (bool_decide_unpack _); by vm_compute).
  by destruct (check_tesseroids_sound _ _ Hrun) as (_ & Hvalid & _).
Defined.

Lemma check_tesseroids_accepts_valid_witness :
  _check_tesseroids [test_tesseroid] = Ok [test_tesseroid].
Proof.
  apply check_tesseroids_accepts_valid. repeat constructor; by vm_compute.
Defined.

Lemma check_tesseroids_idempotent_witness :
  _check_tesseroids
    [Tess (Qc_of_Z (-10)) (Qc_of_Z 10) (Qc_of_Z 1) (Qc_of_Z 3)
          (Qc_of_Z 1) (Qc_of_Z 2)]
  = Ok [Tess (Qc_of_Z (-10)) (Qc_of_Z 10) (Qc_of_Z 1) (Qc_of_Z 3)
             (Qc_of_Z 1) (Qc_of_Z 2)].
Proof.
  apply (check_tesseroids_idempotent
           [Tess (Qc_of_Z 350) (Qc_of_Z 10) (Qc_of_Z 1) (Qc_of_Z 3)
                 (Qc_of_Z 1) (Qc_of_Z 2)]).
  apply (bool_decide_unpack _). by vm_compute.
Defined.

Lemma check_tesseroids_error_witness :
  ∃ check invalid,
    InvalidTesseroids SouthGreaterThanNorth
      [Tess (Qc_of_Z 0) (Qc_of_Z 4) (Qc_of_Z 3) (Qc_of_Z 1) (Qc_of_Z 1)
            (Qc_of_Z 2)]
    = InvalidTesseroids check invalid
    ∧ invalid ≠ [].
Proof.
  destruct (check_tesseroids_error
              [test_tesseroid;
               Tess (Qc_of_Z 0) (Qc_of_Z 4) (Qc_of_Z 3) (Qc_of_Z 1)
                    (Qc_of_Z 1) (Qc_of_Z 2)]
              (InvalidTesseroids SouthGreaterThanNorth
                 [Tess (Qc_of_Z 0) (Qc_of_Z 4) (Qc_of_Z 3) (Qc_of_Z 1)
                       (Qc_of_Z 1) (Qc_of_Z 2)]))
    as (check & invalid & Heq & Hne & _).
  - apply (bool_decide_unpack _). by vm_compute.
  - exists check, invalid. split; [exact Heq | exact Hne].
Defined.

Section PointsOutside.
Local Open Scope Qc_scope.







End PointsOutside.


Section DiscretizationTree.
Context `{Collaborators}.
Local Open Scope Qc_scope.
Implicit Types (st : ad_state) (t c : Tesseroid).

(** Induction over the tree of the adaptive discretization: a property of
    the input that passes from a split tesseroid to its children holds for
    every pending row and, if it gives [Q] on the tesseroids that are not
    split, [Q] holds for every row of the output. *)
Lemma ad_iterate_Forall (P Q : Tesseroid → Prop) coordinates ratio radial
    k st st' :
  (∀ c n_lon n_lat n_rad,
     P c → check_inequality coordinates c ratio radial = (n_lon, n_lat, n_rad) →
     (1 < n_lon * n_lat * n_rad)%Z → Forall P (children c n_lon n_lat n_rad)) →
  (∀ c, P c → check_inequality coordinates c ratio radial = (1, 1, 1)%Z → Q c) →
  ad_wf st → Forall P (pending st) → Forall Q (output st) →
  ad_iterate k coordinates ratio radial st = Ok st' →
  Forall P (pending st') ∧ Forall Q (output st').
Proof.
  intros Hsplit Hleaf Hwf HP HQ Hk.
  destruct (ad_iterate_invariant coordinates ratio radial
              (λ s, Forall P (pending s) ∧ Forall Q (output s)) k st st')
    as [? _]; try done.
  clear -Hsplit Hleaf. intros s s' [HP HQ] Hwf Htop Hstep.
  destruct (pending_top s Hwf Htop) as (c & _ & Hpend).
  destruct (check_inequality coordinates c ratio radial)
    as [[n_lon n_lat] n_rad] eqn:Hcheck.
  pose proof (check_inequality_range _ _ _ _ _ _ _ Hcheck) as (Ha & Hb & Hc).
  rewrite Hpend in HP. apply Forall_app in HP as [Hrest Htopc].
  rewrite Forall_singleton in Htopc.
  destruct (ad_step_inv _ _ _ _ _ _ _ _ _ _ Hpend Hcheck Hstep)
    as [(Hgt & _ & s1 & [= <-] & Hp' & Ho & _)
       | [(_ & _ & [=])
         | [(Hle & _ & s1 & [= <-] & Hp' & Ho & _) | (_ & _ & [=])]]].
  - rewrite Hp', Ho. split; [|done]. apply Forall_app. split; [done |].
    exact (Hsplit c _ _ _ Htopc Hcheck Hgt).
  - rewrite Hp', Ho. split; [done |]. apply Forall_app. split; [done |].
    apply Forall_singleton. apply Hleaf; [done |].
    rewrite Hcheck. destruct Ha as [-> | ->], Hb as [-> | ->], Hc as [-> | ->];
      (done || lia).
Qed.

Lemma adaptive_discretization_Forall (P Q : Tesseroid → Prop) coordinates
    tesseroid ratio (stack small_tesseroids : array) radial n_splits stack'
    small_tesseroids' :
  (∀ c n_lon n_lat n_rad,
     P c → check_inequality coordinates c ratio radial = (n_lon, n_lat, n_rad) →
     (1 < n_lon * n_lat * n_rad)%Z → Forall P (children c n_lon n_lat n_rad)) →
  (∀ c, P c → check_inequality coordinates c ratio radial = (1, 1, 1)%Z → Q c) →
  P tesseroid →
  _adaptive_discretization coordinates tesseroid ratio stack small_tesseroids
    radial = Ok (n_splits, stack', small_tesseroids') →
  Forall Q (take (Z.to_nat n_splits) small_tesseroids').
Proof.
  intros Hsplit Hleaf HP Hrun.
  destruct (decide (1 ≤ length stack)%nat) as [Hlen|Hlen].
  - destruct (ad_init_Ok tesseroid stack small_tesseroids Hlen)
      as (st0 & Hinit & Hp0 & Ho0 & Hwf0 & _).
    rewrite (adaptive_discretization_run _ _ _ _ _ _ _ Hinit) in Hrun.
    destruct (ad_loop _ _ _ _ st0) as [st|] eqn:Hloop;
      cbn [mbind outcome_bind] in Hrun; [|done].
    injection Hrun as <- <- <-.
    apply ad_loop_Ok in Hloop as [Hk _].
    destruct (ad_iterate_Forall P Q coordinates ratio radial
                (ad_fuel stack small_tesseroids) st0 st)
      as [_ HQ]; try done.
    + rewrite Hp0. by apply Forall_singleton.
    + rewrite Ho0. constructor.
  - unfold _adaptive_discretization, ad_init in Hrun.
    rewrite setitem_ge in Hrun by lia. done.
Qed.


Lemma elem_of_children c (n_lon n_lat n_rad : Z) c' :
  (n_lon = 1 ∨ n_lon = 2)%Z → (n_lat = 1 ∨ n_lat = 2)%Z →
  (n_rad = 1 ∨ n_rad = 2)%Z →
  c' ∈ children c n_lon n_lat n_rad →
  ∃ lon lat rad,
    lon ∈ halves (west c) (east c) (bool_decide (n_lon = 2%Z))
    ∧ lat ∈ halves (south c) (north c) (bool_decide (n_lat = 2%Z))
    ∧ rad ∈ halves (bottom c) (top c) (bool_decide (n_rad = 2%Z))
    ∧ c' = Tess lon.1 lon.2 lat.1 lat.2 rad.1 rad.2.
Proof.
  intros Ha Hb Hc. unfold children. rewrite !subdivisions_halves by done.
  intros Hin.
  apply list_elem_of_bind in Hin as (lon & Hin & Hlon).
  apply list_elem_of_bind in Hin as (lat & Hin & Hlat).
  apply list_elem_of_bind in Hin as (rad & Hin & Hrad).
  apply list_elem_of_singleton in Hin. by exists lon, lat, rad.
Qed.

Lemma halves_within (lo hi : Qc) (split : bool) (p : Qc * Qc) :
  lo ≤ hi → p ∈ halves lo hi split → lo ≤ p.1 ∧ p.1 ≤ p.2 ∧ p.2 ≤ hi.
Proof.
  intros Hle. unfold halves. destruct split.
  - intros [-> | [-> | []%elem_of_nil]%elem_of_cons]%elem_of_cons; simpl;
      split_and!; qc_lra.
  - intros [-> | []%elem_of_nil]%elem_of_cons; simpl; split_and!; qc_lra.
Qed.

Lemma children_within c n_lon n_lat n_rad c' :
  (n_lon = 1 ∨ n_lon = 2)%Z → (n_lat = 1 ∨ n_lat = 2)%Z →
  (n_rad = 1 ∨ n_rad = 2)%Z →
  west c ≤ east c → south c ≤ north c → bottom c ≤ top c →
  c' ∈ children c n_lon n_lat n_rad → within c c'.
Proof.
  intros Ha Hb Hc Hwe Hsn Hbt Hin.
  apply elem_of_children in Hin
    as (lon & lat & rad & Hlon & Hlat & Hrad & ->); try done.
  apply halves_within in Hlon as (? & ? & ?); [|done].
  apply halves_within in Hlat as (? & ? & ?); [|done].
  apply halves_within in Hrad as (? & ? & ?); [|done].
  unfold within. simpl. done.
Qed.

Lemma within_trans (a b c : Tesseroid) : within a b → within b c → within a c.
Proof.
  unfold within.
  intros (? & ? & ? & ? & ? & ? & ? & ? & ?) (? & ? & ? & ? & ? & ? & ? & ? & ?).
  split_and!; qc_lra.
Qed.

(** The lengths of the arrays and the number of rows in use, along the
    iterations. *)
Lemma ad_iterate_lengths coordinates ratio radial k st st' :
  ad_wf st → (1 ≤ length (pending st) + length (output st))%nat →
  ad_iterate k coordinates ratio radial st = Ok st' →
  (length (ad_stack st') = length (ad_stack st)
   ∧ length (ad_small_tesseroids st') = length (ad_small_tesseroids st)
   ∧ (1 ≤ length (pending st') + length (output st'))%nat)
  ∧ ad_wf st'.
Proof.
  intros Hwf Hone Hk.
  apply (ad_iterate_invariant coordinates ratio radial
           (λ s, length (ad_stack s) = length (ad_stack st)
                 ∧ length (ad_small_tesseroids s)
                   = length (ad_small_tesseroids st)
                 ∧ (1 ≤ length (pending s) + length (output s))%nat)
           k st st'); try done.
  clear. intros s s' (Hs & Hm & Hone) Hwf Htop Hstep.
  remember (Ok s') as r eqn:Hr.
  destruct Hstep as [t rest a b c s1 Hp Hc Hgt Hfit Hp' Ho' _ Hl1 Hl2 _
                    | | t rest a b c s1 Hp Hc Hle Hfit Hp' Ho' _ Hl1 Hl2 _ | ];
    try discriminate Hr; injection Hr as ->.
  - split_and!; [congruence | congruence |].
    apply check_inequality_range in Hc as (Ha & Hb & Hc).
    pose proof (children_length t a b c ltac:(lia) ltac:(lia) ltac:(lia)).
    rewrite Hp', length_app. lia.
  - split_and!; [congruence | congruence |].
    rewrite Ho', length_app. simpl. lia.
Qed.

(** X6.  When [_adaptive_discretization] returns, it returns at least one
    small tesseroid and at most as many as the output buffer has rows, the
    two arrays keep their lengths, and every small tesseroid it returns
    meets the distance-size criterion: its distance to the computation
    point divided by its size along the longitude and along the latitude
    is at least the distance-size ratio, and so is the one along the
    radius when the radial discretization is enabled. *)
Theorem adaptive_discretization_leaves coordinates tesseroid ratio
    (stack small_tesseroids : array) radial n_splits stack' small_tesseroids' :
  _adaptive_discretization coordinates tesseroid ratio stack small_tesseroids
    radial = Ok (n_splits, stack', small_tesseroids') →
  (1 ≤ n_splits ≤ Z.of_nat (length small_tesseroids))%Z
  ∧ length stack' = length stack
  ∧ length small_tesseroids' = length small_tesseroids
  ∧ Forall (λ c,
        let d := _distance_tesseroid_point coordinates c in
        let l := _tesseroid_dimensions c in
        ratio ≤ d / l.1.1 ∧ ratio ≤ d / l.1.2
        ∧ (radial = true → ratio ≤ d / l.2))
      (take (Z.to_nat n_splits) small_tesseroids').
Proof.
  intros Hrun.
  assert (HQ : Forall (λ c, check_inequality coordinates c ratio radial
                            = (1, 1, 1)%Z)
                 (take (Z.to_nat n_splits) small_tesseroids')).
  { eapply (adaptive_discretization_Forall (λ _, True)); [| |done|exact Hrun].
    - intros. by apply Forall_forall.
    - done. }
  assert (Hcrit : Forall (λ c,
        let d := _distance_tesseroid_point coordinates c in
        let l := _tesseroid_dimensions c in
        ratio ≤ d / l.1.1 ∧ ratio ≤ d / l.1.2
        ∧ (radial = true → ratio ≤ d / l.2))
      (take (Z.to_nat n_splits) small_tesseroids')).
  { eapply Forall_impl; [exact HQ |]. intros c Hc. simpl.
    apply check_inequality_spec in Hc as (Hlon & Hlat & Hrad).
    split_and!.
    - apply Qcnot_lt_le. intros Hlt. by apply Hlon in Hlt.
    - apply Qcnot_lt_le. intros Hlt. by apply Hlat in Hlt.
    - intros Hr. apply Qcnot_lt_le. intros Hlt.
      by assert (1 = 2)%Z by (by apply Hrad). }
  clear HQ.
  destruct (decide (1 ≤ length stack)%nat) as [Hlen|Hlen];
    [|unfold _adaptive_discretization, ad_init in Hrun;
      rewrite setitem_ge in Hrun by lia; done].
  destruct (ad_init_Ok tesseroid stack small_tesseroids Hlen)
      as (st0 & Hinit & Hp0 & Ho0 & Hwf0 & _ & Hls & Hsm).
  rewrite (adaptive_discretization_run _ _ _ _ _ _ _ Hinit) in Hrun.
  destruct (ad_loop _ _ _ _ st0) as [st|] eqn:Hloop;
      cbn [mbind outcome_bind] in Hrun; [|done].
  injection Hrun as <- <- <-.
  apply ad_loop_Ok in Hloop as [Hk Htop].
  destruct (ad_iterate_lengths coordinates ratio radial (ad_fuel stack small_tesseroids) st0 st Hwf0)
      as ((Hl1 & Hl2 & Hone) & Hwf); [rewrite Hp0, Ho0; simpl; lia | done |].
  pose proof (pending_length st Hwf) as Hpl.
  pose proof (output_length st Hwf) as Hol.
  split_and!; [| | congruence | congruence | done].
  - lia.
  - destruct Hwf as [Hw1 Hw2]. rewrite Hl2, Hsm in Hw2. lia.
Qed.


(** A run that returns went through the loop from the state holding the
    input alone to a state with an empty stack. *)
Lemma adaptive_discretization_Ok_inv coordinates tesseroid ratio
    (stack small_tesseroids : array) radial n_splits stack' small_tesseroids' :
  _adaptive_discretization coordinates tesseroid ratio stack small_tesseroids
    radial = Ok (n_splits, stack', small_tesseroids') →
  ∃ st0 st,
    pending st0 = [tesseroid]%list ∧ output st0 = []%list ∧ ad_wf st0
    ∧ ad_iterate (ad_fuel stack small_tesseroids) coordinates ratio radial st0
      = Ok st
    ∧ pending st = []%list
    ∧ output st = take (Z.to_nat n_splits) small_tesseroids'.
Proof.
  intros Hrun.
  destruct (decide (1 ≤ length stack)%nat) as [Hlen|Hlen].
  - destruct (ad_init_Ok tesseroid stack small_tesseroids Hlen)
      as (st0 & Hinit & Hp0 & Ho0 & Hwf0 & _).
    rewrite (adaptive_discretization_run _ _ _ _ _ _ _ Hinit) in Hrun.
    destruct (ad_loop _ _ _ _ st0) as [st|] eqn:Hloop;
      cbn [mbind outcome_bind] in Hrun; [|done].
    injection Hrun as <- <- <-.
    apply ad_loop_Ok in Hloop as [Hk Htop].
    exists st0, st. split_and!; try done.
    pose proof (ad_iterate_wf coordinates ratio radial _ _ _ Hwf0 Hk)
      as [Hw _].
    unfold pending. replace (ad_stack_top st + 1)%Z with 0%Z by lia. done.
  - unfold _adaptive_discretization, ad_init in Hrun.
    rewrite setitem_ge in Hrun by lia. done.
Qed.

(** X7.  The small tesseroids returned for a tesseroid with ordered bounds
    have ordered bounds and lie within it. *)
Theorem adaptive_discretization_within coordinates tesseroid ratio
    (stack small_tesseroids : array) radial n_splits stack' small_tesseroids' :
  west tesseroid ≤ east tesseroid → south tesseroid ≤ north tesseroid →
  bottom tesseroid ≤ top tesseroid →
  _adaptive_discretization coordinates tesseroid ratio stack small_tesseroids
    radial = Ok (n_splits, stack', small_tesseroids') →
  Forall (within tesseroid) (take (Z.to_nat n_splits) small_tesseroids').
Proof.
  intros Hwe Hsn Hbt Hrun.
  eapply (adaptive_discretization_Forall (within tesseroid));
    [| |  |exact Hrun].
  - intros c a b k Hc Hcheck _.
    apply check_inequality_range in Hcheck as (Ha & Hb & Hk).
    apply Forall_forall. intros c' Hin.
    apply (within_trans _ c); [done |].
    destruct Hc as (? & ? & ? & ? & ? & ? & ? & ? & ?).
    by apply (children_within c a b k).
  - done.
  - unfold within. split_and!; (done || apply Qcle_refl).
Qed.

(** X8.  With the radial discretization disabled, every small tesseroid
    that is returned keeps the bottom and the top of the input. *)
Theorem adaptive_discretization_radial_bounds coordinates tesseroid ratio
    (stack small_tesseroids : array) n_splits stack' small_tesseroids' :
  _adaptive_discretization coordinates tesseroid ratio stack small_tesseroids
    false = Ok (n_splits, stack', small_tesseroids') →
  Forall (λ c, bottom c = bottom tesseroid ∧ top c = top tesseroid)
    (take (Z.to_nat n_splits) small_tesseroids').
Proof.
  intros Hrun.
  eapply (adaptive_discretization_Forall
            (λ c, bottom c = bottom tesseroid ∧ top c = top tesseroid));
    [| | |exact Hrun].
  - intros c a b k [Hb Ht] Hcheck _.
    pose proof (check_inequality_range _ _ _ _ _ _ _ Hcheck) as (Ha & Hb' & Hk).
    apply check_inequality_spec in Hcheck as (_ & _ & Hrad).
    assert (k = 1%Z) as ->.
    { destruct Hk as [-> | ->]; [done |].
      by destruct (proj1 Hrad eq_refl) as [_ ?]. }
    apply Forall_forall. intros c' Hin.
    apply elem_of_children in Hin
      as (lon & lat & rad & _ & _ & Hin & ->); try done.
    rewrite bool_decide_eq_false_2 in Hin by done.
    apply list_elem_of_singleton in Hin as ->. simpl. done.
  - done.
  - done.
Qed.

Lemma sum_list_singleton (x : Qc) : sum_list [x]%list = x.
Proof. unfold sum_list. simpl. ring. Qed.

Lemma children_volume c (n_lon n_lat n_rad : Z) :
  (n_lon = 1 ∨ n_lon = 2)%Z → (n_lat = 1 ∨ n_lat = 2)%Z →
  (n_rad = 1 ∨ n_rad = 2)%Z →
  sum_list (map box_volume (children c n_lon n_lat n_rad)) = box_volume c.
Proof.
  intros Ha Hb Hc. unfold children. rewrite !subdivisions_halves by done.
  destruct c as [w e s n b t]. simpl.
  destruct Ha as [-> | ->], Hb as [-> | ->], Hc as [-> | ->];
    simpl; unfold sum_list, box_volume; simpl; qc_lra.
Qed.

(** X9.  The small tesseroids that are returned have together the volume of
    the input, as boxes of longitude, latitude and radius. *)
Theorem adaptive_discretization_volume coordinates tesseroid ratio
    (stack small_tesseroids : array) radial n_splits stack' small_tesseroids' :
  _adaptive_discretization coordinates tesseroid ratio stack small_tesseroids
    radial = Ok (n_splits, stack', small_tesseroids') →
  sum_list (map box_volume (take (Z.to_nat n_splits) small_tesseroids'))
  = box_volume tesseroid.
Proof.
  intros Hrun.
  apply adaptive_discretization_Ok_inv in Hrun
    as (st0 & st & Hp0 & Ho0 & Hwf0 & Hk & Hp & Ho).
  destruct (ad_iterate_invariant coordinates ratio radial
              (λ s, sum_list (map box_volume (pending s))
                    + sum_list (map box_volume (output s))
                    = box_volume tesseroid)
              (ad_fuel stack small_tesseroids) st0 st) as [HI _]; try done.
  - clear. intros s s' HI Hwf Htop Hstep.
    destruct (pending_top s Hwf Htop) as (c & _ & Hpend).
    destruct (check_inequality coordinates c ratio radial)
      as [[n_lon n_lat] n_rad] eqn:Hcheck.
    pose proof (check_inequality_range _ _ _ _ _ _ _ Hcheck) as (Ha & Hb & Hc).
    rewrite Hpend, map_app, sum_list_app in HI.
    change (map box_volume [c]%list) with [box_volume c]%list in HI.
    rewrite sum_list_singleton in HI.
    destruct (ad_step_inv _ _ _ _ _ _ _ _ _ _ Hpend Hcheck Hstep)
      as [(Hgt & _ & s1 & [= <-] & Hp' & Ho & _)
         | [(_ & _ & [=])
           | [(Hle & _ & s1 & [= <-] & Hp' & Ho & _) | (_ & _ & [=])]]].
    + rewrite Hp', Ho, map_app, sum_list_app, children_volume by done.
      exact HI.
    + rewrite Hp', Ho, map_app, sum_list_app.
      change (map box_volume [c]%list) with [box_volume c]%list.
      rewrite sum_list_singleton, <-HI. ring.
  - rewrite Hp0, Ho0.
    change (map box_volume [tesseroid]%list) with [box_volume tesseroid]%list.
    rewrite sum_list_singleton. change (sum_list (map box_volume [])) with 0.
    ring.
  - rewrite Hp, Ho in HI.
    change (sum_list (map box_volume [])) with 0 in HI.
    rewrite <-HI. ring.
Qed.




End DiscretizationTree.

Lemma adaptive_discretization_leaves_witness :
  ∃ stack' small_tesseroids',
    _adaptive_discretization (H := test_collaborators) test_point
      test_tesseroid (Q2Qc 1) test_stack test_small_tesseroids false
    = Ok (4%Z, stack', small_tesseroids')
    ∧ (1 ≤ 4 ≤ Z.of_nat (length test_small_tesseroids))%Z
    ∧ Forall (λ c,
          let d := _distance_tesseroid_point (H := test_collaborators)
                     test_point c in
          let l := _tesseroid_dimensions (H := test_collaborators) c in
          (Q2Qc 1 ≤ d / l.1.1 ∧ Q2Qc 1 ≤ d / l.1.2
           ∧ (false = true → Q2Qc 1 ≤ d / l.2))%Qc)
        (take 4 small_tesseroids').
Proof.
  destruct (_adaptive_discretization (H := test_collaborators) test_point
              test_tesseroid (Q2Qc 1) test_stack test_small_tesseroids false)
    as [[[n stack'] small']|e] eqn:Hrun.
  - assert (Hn : n = 4%Z).
    { apply (f_equal (λ r, match r with Ok (n, _, _) => n | _ => 0%Z end))
        in Hrun. vm_compute in Hrun. done. }
    subst n. exists stack', small'. split; [reflexivity |].
    destruct (adaptive_discretization_leaves (H := test_collaborators)
                test_point test_tesseroid (Q2Qc 1) test_stack
                test_small_tesseroids false 4%Z stack' small' Hrun)
      as (Hn & _ & _ & Hall).
    split; [exact Hn | exact Hall].
  - apply (f_equal (λ r, match r with Ok _ => true | _ => false end)) in Hrun.
    vm_compute in Hrun. discriminate Hrun.
Defined.

Lemma adaptive_discretization_within_witness :
  ∃ stack' small_tesseroids',
    _adaptive_discretization (H := test_collaborators) test_point
      test_tesseroid (Q2Qc 1) test_stack test_small_tesseroids false
    = Ok (4%Z, stack', small_tesseroids')
    ∧ Forall (within test_tesseroid) (take 4 small_tesseroids').
Proof.
  destruct (_adaptive_discretization (H := test_collaborators) test_point
              test_tesseroid (Q2Qc 1) test_stack test_small_tesseroids false)
    as [[[n stack'] small']|e] eqn:Hrun.
  - assert (Hn : n = 4%Z).
    { apply (f_equal (λ r, match r with Ok (n, _, _) => n | _ => 0%Z end))
        in Hrun. vm_compute in Hrun. done. }
    subst n. exists stack', small'. split; [reflexivity |].
    apply (adaptive_discretization_within (H := test_collaborators)
             test_point test_tesseroid (Q2Qc 1) test_stack
             test_small_tesseroids false 4%Z stack' small');
      [by vm_compute | by vm_compute | by vm_compute | exact Hrun].
  - apply (f_equal (λ r, match r with Ok _ => true | _ => false end)) in Hrun.
    vm_compute in Hrun. discriminate Hrun.
Defined.

Lemma adaptive_discretization_radial_bounds_witness :
  ∃ stack' small_tesseroids',
    _adaptive_discretization (H := test_collaborators) test_point
      test_tesseroid (Q2Qc 1) test_stack test_small_tesseroids false
    = Ok (4%Z, stack', small_tesseroids')
    ∧ Forall (λ c, bottom c = bottom test_tesseroid
                   ∧ top c = top test_tesseroid)
        (take 4 small_tesseroids').
Proof.
  destruct (_adaptive_discretization (H := test_collaborators) test_point
              test_tesseroid (Q2Qc 1) test_stack test_small_tesseroids false)
    as [[[n stack'] small']|e] eqn:Hrun.
  - assert (Hn : n = 4%Z).
    { apply (f_equal (λ r, match r with Ok (n, _, _) => n | _ => 0%Z end))
        in Hrun. vm_compute in Hrun. done. }
    subst n. exists stack', small'. split; [reflexivity |].
    exact (adaptive_discretization_radial_bounds (H := test_collaborators)
             test_point test_tesseroid (Q2Qc 1) test_stack
             test_small_tesseroids 4%Z stack' small' Hrun).
  - apply (f_equal (λ r, match r with Ok _ => true | _ => false end)) in Hrun.
    vm_compute in Hrun. discriminate Hrun.
Defined.

Lemma adaptive_discretization_volume_witness :
  ∃ stack' small_tesseroids',
    _adaptive_discretization (H := test_collaborators) test_point
      test_tesseroid (Q2Qc 1) test_stack test_small_tesseroids false
    = Ok (4%Z, stack', small_tesseroids')
    ∧ sum_list (map box_volume (take 4 small_tesseroids')) = Qc_of_Z 8.
Proof.
  destruct (_adaptive_discretization (H := test_collaborators) test_point
              test_tesseroid (Q2Qc 1) test_stack test_small_tesseroids false)
    as [[[n stack'] small']|e] eqn:Hrun.
  - assert (Hn : n = 4%Z).
    { apply (f_equal (λ r, match r with Ok (n, _, _) => n | _ => 0%Z end))
        in Hrun. vm_compute in Hrun. done. }
    subst n. exists stack', small'. split; [reflexivity |].
    etrans;
      [exact (adaptive_discretization_volume (H := test_collaborators)
                test_point test_tesseroid (Q2Qc 1) test_stack
                test_small_tesseroids false 4%Z stack' small' Hrun) |].
    apply Qc_is_canon. by vm_compute.
  - apply (f_equal (λ r, match r with Ok _ => true | _ => false end)) in Hrun.
    vm_compute in Hrun. discriminate Hrun.
Defined.



Section QuadratureLinearity.
Context `{Collaborators}.
Local Open Scope Qc_scope.






End QuadratureLinearity.

Section DensitySlices.
Context `{Collaborators}.
Local Open Scope Qc_scope.

(** X14.  When the minimum and the maximum of the density are close over
    the radial extent of every tesseroid, [density_based_discretization]
    returns the collection as it is. *)
Theorem density_based_discretization_constant (fuel : nat) (tesseroids : array)
    (density : Qc → Qc) :
  (∀ t, t ∈ tesseroids →
        np_isclose (density_minmax density (bottom t) (top t)).1
                   (density_minmax density (bottom t) (top t)).2 = true) →
  density_based_discretization fuel tesseroids density = Ok tesseroids.
Proof.
  intros Hclose. unfold density_based_discretization.
  assert (Hgen : ∀ done_,
            for_ tesseroids (λ tesseroid discretized_tesseroids,
              slices ← _density_based_discretization fuel tesseroid density;
              Ok (discretized_tesseroids ++ slices)) done_
            = Ok (done_ ++ tesseroids)).
  { induction tesseroids as [|t ts IH]; intros done_; simpl.
    - by rewrite app_nil_r.
    - assert (Ht : _density_based_discretization fuel t density = Ok [t]%list).
      { pose proof (Hclose t ltac:(by left)) as Hc.
        destruct t as [w e s n b tp]. unfold _density_based_discretization.
        cbn [bottom top] in Hc.
        destruct (density_minmax density b tp) as [lo hi]. cbn [fst snd] in Hc.
        by rewrite Hc. }
      rewrite Ht. simpl. rewrite IH; [by rewrite <-app_assoc |].
      intros t' Ht'. apply Hclose. by right. }
  apply (Hgen []%list).
Qed.

Lemma sum_list_nil : sum_list [] = 0.
Proof. reflexivity. Qed.

Lemma sum_list_cons (x : Qc) (xs : list Qc) :
  sum_list (x :: xs) = x + sum_list xs.
Proof. reflexivity. Qed.

Lemma dbd_loop_thickness fuel (w e s n : Qc) nd size
    (pending out slices : list Tesseroid) :
  dbd_loop fuel w e s n nd size pending out = Ok slices →
  sum_list (map thickness slices)
  = sum_list (map thickness pending) + sum_list (map thickness out)
  ∧ (length pending + length out ≤ length slices)%nat.
Proof.
  revert pending out. induction fuel as [|fuel IH]; intros pending out.
  - destruct pending; simpl; [|done]. intros [= <-].
    split; [|lia]. rewrite ?sum_list_nil. ring.
  - destruct pending as [|slice pending]; simpl.
    + intros [= <-]. split; [|lia]. rewrite ?sum_list_nil. ring.
    + destruct (maximum_absolute_diff nd (bottom slice) (top slice))
        as [radius_split max_diff].
      destruct (gtb _ _); intros Hrun; apply IH in Hrun as (Hsum & Hall);
        rewrite length_app in Hall; simpl in Hall; (split; [|lia]);
        rewrite Hsum, map_app, sum_list_app; cbn [map];
        rewrite ?sum_list_cons, ?sum_list_nil; unfold thickness;
        cbn [top bottom]; ring.
Qed.

(** What [_density_based_discretization] returns is the tesseroid itself
    or the outcome of the loop started with it. *)
Lemma density_based_discretization_cases (fuel : nat) (t : Tesseroid)
    (density : Qc → Qc) (slices : list Tesseroid) :
  _density_based_discretization fuel t density = Ok slices →
  slices = [t]%list
  ∨ ∃ nd, dbd_loop fuel (west t) (east t) (south t) (north t) nd
            (top t - bottom t) [t]%list [] = Ok slices.
Proof.
  destruct t as [w e s n b tp]. unfold _density_based_discretization.
  destruct (density_minmax density b tp) as [lo hi].
  destruct (np_isclose lo hi).
  - intros [= <-]. by left.
  - intros Hrun. right. by eexists.
Qed.

(** X15.  When [_density_based_discretization] returns, it returns at least
    one slice, and the radial extents of the slices add up to the radial
    extent of the tesseroid. *)
Theorem density_based_discretization_thickness (fuel : nat) (t : Tesseroid)
    (density : Qc → Qc) (slices : list Tesseroid) :
  _density_based_discretization fuel t density = Ok slices →
  (1 ≤ length slices)%nat
  ∧ sum_list (map thickness slices) = thickness t.
Proof.
  intros Hrun.
  apply density_based_discretization_cases in Hrun as [-> | [nd Hloop]].
  - split; [simpl; lia |]. cbn [map].
    rewrite sum_list_cons, sum_list_nil. ring.
  - apply dbd_loop_thickness in Hloop as (Hsum & Hlen).
    simpl in Hlen. split; [lia |]. rewrite Hsum. cbn [map].
    rewrite sum_list_cons, !sum_list_nil. ring.
Qed.

(** X16.  When [density_based_discretization] returns, the collection it
    returns has at least as many tesseroids as the one it was given, and
    the same total radial extent. *)
Theorem density_based_discretization_total (fuel : nat) (tesseroids : array)
    (density : Qc → Qc) (discretized : array) :
  density_based_discretization fuel tesseroids density = Ok discretized →
  (length tesseroids ≤ length discretized)%nat
  ∧ sum_list (map thickness discretized) = sum_list (map thickness tesseroids).
Proof.
  unfold density_based_discretization.
  assert (Hgen : ∀ done_ out,
            for_ tesseroids (λ tesseroid discretized_tesseroids,
              slices ← _density_based_discretization fuel tesseroid density;
              Ok (discretized_tesseroids ++ slices)) done_ = Ok out →
            (length done_ + length tesseroids ≤ length out)%nat
            ∧ sum_list (map thickness out)
              = sum_list (map thickness done_)
                + sum_list (map thickness tesseroids)).
  { induction tesseroids as [|t ts IH]; intros done_ out; simpl.
    - intros [= <-]. split; [lia |]. rewrite ?sum_list_nil. ring.
    - destruct (_density_based_discretization fuel t density)
        as [slices|] eqn:Ht; simpl; [|done].
      assert (Hslices : (1 ≤ length slices)%nat
                        ∧ sum_list (map thickness slices) = thickness t).
      { apply density_based_discretization_cases in Ht as [-> | [nd Hloop]].
        - split; [simpl; lia |]. cbn [map].
          rewrite sum_list_cons, sum_list_nil. ring.
        - apply dbd_loop_thickness in Hloop as (Hsum & Hlen).
          simpl in Hlen. split; [lia |]. rewrite Hsum. cbn [map].
          rewrite sum_list_cons, !sum_list_nil. ring. }
      destruct Hslices as [Hone Hsum].
      intros Hrun. apply IH in Hrun as [Hlen Htot].
      rewrite length_app in Hlen. split; [lia |].
      rewrite Htot, map_app, sum_list_app, Hsum. unfold sum_list. simpl. ring. }
  intros Hrun. apply Hgen in Hrun as [Hlen Hsum]. simpl in Hlen.
  split; [lia |]. rewrite Hsum. cbn [map]. rewrite ?sum_list_nil. ring.
Qed.

(** X17.  The reference line of [straight_line] joins the values of the
    normalized density at the bottom and at the top: over an extent that is
    not empty it takes the value of the normalized density at both ends,
    so the difference that [maximum_absolute_diff] maximises is zero
    there. *)
Theorem straight_line_endpoints (normalized_density : Qc → Qc)
    (bottom top : Qc) :
  bottom ≠ top →
  straight_line bottom normalized_density bottom top
  = normalized_density bottom
  ∧ straight_line top normalized_density bottom top = normalized_density top.
Proof.
  intros Hne. unfold straight_line. split.
  - ring.
  - field. intros Heq. apply Hne. symmetry.
    rewrite <-(Qcplus_0_l bottom), <-Heq. ring.
Qed.

(** X18.  The normalized density of [_density_based_discretization] lies
    between 0 and 1 wherever the density lies between its minimum and its
    maximum, and these are distinct; it is 0 where the density is at its
    minimum and 1 where it is at its maximum. *)
Theorem normalized_density_range (density : Qc → Qc)
    (density_min density_max radius : Qc) :
  density_min < density_max →
  density_min ≤ density radius → density radius ≤ density_max →
  0 ≤ normalized_density density density_min density_max radius
  ∧ normalized_density density density_min density_max radius ≤ 1
  ∧ (density radius = density_min →
     normalized_density density density_min density_max radius = 0)
  ∧ (density radius = density_max →
     normalized_density density density_min density_max radius = 1).
Proof.
  intros Hlt Hlo Hhi. unfold normalized_density.
  assert (Hpos : 0 < density_max - density_min) by qc_lra.
  assert (Hne : density_max - density_min ≠ 0).
  { intros Heq. rewrite Heq in Hpos. by apply Qclt_not_eq in Hpos. }
  assert (Hmul : (density radius - density_min) / (density_max - density_min)
                 * (density_max - density_min) = density radius - density_min)
    by (by field).
  split_and!.
  - apply (Qcmult_lt_0_le_reg_r _ _ (density_max - density_min)); [done |].
    rewrite Hmul. qc_lra.
  - apply (Qcmult_lt_0_le_reg_r _ _ (density_max - density_min)); [done |].
    rewrite Hmul. qc_lra.
  - intros ->. by field.
  - intros ->. by field.
Qed.

End DensitySlices.

Section SliceExamples.
Local Open Scope Qc_scope.
Local Existing Instance test_collaborators.



Lemma density_based_discretization_constant_witness :
  density_based_discretization (H := test_collaborators) 0
    [test_tesseroid; test_tesseroid]%list (λ _, Qc_of_Z 3)
  = Ok [test_tesseroid; test_tesseroid]%list.
Proof.
  apply (density_based_discretization_constant (H := test_collaborators)).
  intros t Ht. apply list_elem_of_In in Ht.
  destruct Ht as [<- | [<- | []]]; by vm_compute.
Defined.

Lemma density_based_discretization_thickness_witness :
  (1 ≤ 2)%nat
  ∧ sum_list (map thickness
      [Tess (Qc_of_Z 0) (Qc_of_Z 4) (Qc_of_Z 1) (Qc_of_Z 3)
            (Q2Qc 1.5) (Qc_of_Z 2);
       Tess (Qc_of_Z 0) (Qc_of_Z 4) (Qc_of_Z 1) (Qc_of_Z 3)
            (Qc_of_Z 1) (Q2Qc 1.5)])
    = thickness test_tesseroid.
Proof.
  apply (density_based_discretization_thickness (H := test_collaborators) 3
           test_tesseroid (λ r, (r * r * r * r)%Qc)
           [Tess (Qc_of_Z 0) (Qc_of_Z 4) (Qc_of_Z 1) (Qc_of_Z 3)
                 (Q2Qc 1.5) (Qc_of_Z 2);
            Tess (Qc_of_Z 0) (Qc_of_Z 4) (Qc_of_Z 1) (Qc_of_Z 3)
                 (Qc_of_Z 1) (Q2Qc 1.5)]).
  apply (bool_decide_unpack _). by vm_compute.
Defined.

Lemma density_based_discretization_total_witness :
  (2 ≤ 4)%nat
  ∧ sum_list (map thickness
      [Tess (Qc_of_Z 0) (Qc_of_Z 4) (Qc_of_Z 1) (Qc_of_Z 3)
            (Q2Qc 1.5) (Qc_of_Z 2);
       Tess (Qc_of_Z 0) (Qc_of_Z 4) (Qc_of_Z 1) (Qc_of_Z 3)
            (Qc_of_Z 1) (Q2Qc 1.5);
       Tess (Qc_of_Z 0) (Qc_of_Z 4) (Qc_of_Z 1) (Qc_of_Z 3)
            (Q2Qc 1.5) (Qc_of_Z 2);
       Tess (Qc_of_Z 0) (Qc_of_Z 4) (Qc_of_Z 1) (Qc_of_Z 3)
            (Qc_of_Z 1) (Q2Qc 1.5)])
    = sum_list (map thickness
        [test_tesseroid; test_tesseroid]).
Proof.
  apply (density_based_discretization_total (H := test_collaborators) 3
           [test_tesseroid; test_tesseroid]%list
           (λ r, (r * r * r * r)%Qc)
           [Tess (Qc_of_Z 0) (Qc_of_Z 4) (Qc_of_Z 1) (Qc_of_Z 3)
                 (Q2Qc 1.5) (Qc_of_Z 2);
            Tess (Qc_of_Z 0) (Qc_of_Z 4) (Qc_of_Z 1) (Qc_of_Z 3)
                 (Qc_of_Z 1) (Q2Qc 1.5);
            Tess (Qc_of_Z 0) (Qc_of_Z 4) (Qc_of_Z 1) (Qc_of_Z 3)
                 (Q2Qc 1.5) (Qc_of_Z 2);
            Tess (Qc_of_Z 0) (Qc_of_Z 4) (Qc_of_Z 1) (Qc_of_Z 3)
                 (Qc_of_Z 1) (Q2Qc 1.5)]).
  apply (bool_decide_unpack _). by vm_compute.
Defined.

Lemma straight_line_endpoints_witness :
  straight_line (Qc_of_Z 1) (λ r, (r * r)%Qc) (Qc_of_Z 1) (Qc_of_Z 3)
  = Qc_of_Z 1 * Qc_of_Z 1
  ∧ straight_line (Qc_of_Z 3) (λ r, (r * r)%Qc) (Qc_of_Z 1) (Qc_of_Z 3)
    = Qc_of_Z 3 * Qc_of_Z 3.
Proof.
  apply (straight_line_endpoints (λ r, (r * r)%Qc) (Qc_of_Z 1) (Qc_of_Z 3)).
  intros Heq. apply (f_equal (λ q : Qc, Qnum (this q))) in Heq.
  vm_compute in Heq. discriminate Heq.
Defined.

Lemma normalized_density_range_witness :
  (0 ≤ normalized_density (λ r, (r * r)%Qc) (Qc_of_Z 1) (Qc_of_Z 9)
         (Qc_of_Z 2)
   ∧ normalized_density (λ r, (r * r)%Qc) (Qc_of_Z 1) (Qc_of_Z 9)
       (Qc_of_Z 2) ≤ 1)%Qc.
Proof.
  destruct (normalized_density_range (λ r, (r * r)%Qc) (Qc_of_Z 1)
              (Qc_of_Z 9) (Qc_of_Z 2)) as (Hlo & Hhi & _);
    [by vm_compute | by vm_compute | by vm_compute |].
  split; [exact Hlo | exact Hhi].
Defined.

End SliceExamples.

Section DriverShape.
Context `{Collaborators}.
Local Open Scope Qc_scope.

(** A property of the state that every iteration keeps holds when the loop
    ends. *)
Lemma for_invariant {A St : Type} (I : St → Prop) (xs : list A)
    (body : A → St → outcome St) (s s' : St) :
  (∀ x s s', I s → body x s = Ok s' → I s') →
  I s → for_ xs body s = Ok s' → I s'.
Proof.
  intros Hbody. revert s. induction xs as [|x xs IH]; intros s Hs; simpl.
  - by intros [= <-].
  - destruct (body x s) as [s1|e] eqn:Hx; simpl; [|done].
    apply IH. by eapply Hbody.
Qed.

Lemma setitem_length {A : Type} (a a' : list A) (i : Z) (x : A) :
  setitem a i x = Ok a' → length a' = length a.
Proof.
  unfold setitem. destruct (py_index (length a) i); [|done].
  intros [= <-]. apply length_insert.
Qed.

Lemma bind_Ok {A B : Type} (m : outcome A) (f : A → outcome B) (b : B) :
  m ≫= f = Ok b → ∃ a, m = Ok a ∧ f a = Ok b.
Proof. destruct m as [a|e]; [by exists a | done]. Qed.

(** [jit_tesseroid_gravity] writes in [result] and never resizes it. *)
Lemma jit_tesseroid_gravity_length coordinates (tesseroids : array) density
    density_func (result sums : list Qc) ratio radial glq_nodes glq_weights
    (kernel : kernel) :
  jit_tesseroid_gravity coordinates tesseroids density density_func result
    ratio radial glq_nodes glq_weights kernel = Ok sums →
  length sums = length result.
Proof.
  destruct coordinates as [[longitude latitude] radius].
  unfold jit_tesseroid_gravity.
  apply (for_invariant (λ r, length r = length result)); [|reflexivity].
  intros l r r' Hr Hbody.
  apply bind_Ok in Hbody as ([[r1 stack1] small1] & Hinner & [= <-]).
  revert Hinner.
  generalize (replicate STACK_SIZE np_empty_row).
  generalize (replicate MAX_DISCRETIZATIONS np_empty_row).
  intros small0 stack0 Hinner.
  apply (for_invariant (λ '(r, _, _), length r = length result)) in Hinner;
    [exact Hinner | | exact Hr].
  clear. intros m [[r stack] small] [[r' stack'] small'] Hr Hbody.
  apply bind_Ok in Hbody as (longitude_l & _ & Hbody).
  apply bind_Ok in Hbody as (latitude_l & _ & Hbody).
  apply bind_Ok in Hbody as (radius_l & _ & Hbody).
  apply bind_Ok in Hbody as (tesseroid_m & _ & Hbody).
  apply bind_Ok in Hbody as ([[n_splits stack1] small1] & _ & Hbody).
  apply bind_Ok in Hbody as (r1 & Hquad & [= <- _ _]).
  apply (for_invariant (λ r, length r = length result)) in Hquad;
    [exact Hquad | | exact Hr].
  clear. intros tess_index r r' Hr Hbody.
  apply bind_Ok in Hbody as (tesseroid & _ & Hbody).
  apply bind_Ok in Hbody as (current & _ & Hbody).
  apply bind_Ok in Hbody as (longitude_rad_l & _ & Hbody).
  apply bind_Ok in Hbody as (cosphi_l & _ & Hbody).
  apply bind_Ok in Hbody as (sinphi_l & _ & Hbody).
  apply bind_Ok in Hbody as (radius_l & _ & Hbody).
  apply bind_Ok in Hbody as (effect & _ & Hbody).
  apply setitem_length in Hbody. congruence.
Qed.

(** X19.  The array that [tesseroid_gravity] returns holds as many values
    as its shape says: the forward modelling function fills the array
    created for the broadcast shape of the coordinates without resizing
    it. *)
Theorem tesseroid_gravity_size (fuel : nat)
    (coordinates : ndarray * ndarray * ndarray) (tesseroids : array)
    (density : density_arg) (field : string)
    (parallel radial disable_checks : bool) (result : ndarray) :
  tesseroid_gravity fuel coordinates tesseroids density field parallel radial
    disable_checks = Ok result →
  length (ravel result) = size (shape result).
Proof.
  destruct coordinates as [[longitude latitude] radius].
  unfold tesseroid_gravity. intros Hrun.
  apply bind_Ok in Hrun as (kernel & _ & Hrun).
  apply bind_Ok in Hrun as (cast & _ & Hrun).
  apply bind_Ok in Hrun as (tesseroids1 & _ & Hrun).
  apply bind_Ok in Hrun as ([[density1 density_func1] tesseroids2] & _ & Hrun).
  destruct (glq_nodes_weights GLQ_DEGREES) as [glq_nodes glq_weights].
  apply bind_Ok in Hrun as (ratio & _ & Hrun).
  apply bind_Ok in Hrun as (sums & Hjit & Hrun).
  assert (Hlen : length sums = size cast).
  { destruct parallel; unfold dispatcher, jit_tesseroid_gravity_parallel,
      jit_tesseroid_gravity_serial in Hjit;
      apply jit_tesseroid_gravity_length in Hjit;
      by rewrite Hjit, length_replicate. }
  injection Hrun as <-. cbn [ravel shape].
  destruct (String.eqb field "g_z"); by rewrite ?length_map.
Qed.


(** X21.  A field name that is neither ["potential"] nor ["g_z"] makes
    [tesseroid_gravity] raise the error on the field, whatever the other
    arguments are: nothing else is looked at before. *)
Theorem tesseroid_gravity_field (fuel : nat)
    (coordinates : ndarray * ndarray * ndarray) (tesseroids : array)
    (density : density_arg) (field : string)
    (parallel radial disable_checks : bool) :
  field ≠ "potential"%string → field ≠ "g_z"%string →
  tesseroid_gravity fuel coordinates tesseroids density field parallel radial
    disable_checks = Raise (FieldNotRecognized field).
Proof.
  intros Hp Hg. unfold tesseroid_gravity, kernels.
  apply String.eqb_neq in Hp, Hg. rewrite Hp, Hg. reflexivity.
Qed.

(** X22.  With the checks enabled, [tesseroid_gravity] returns a result
    only for a collection that [_check_tesseroids] accepts, whose
    tesseroids are then well defined, and for computation points that
    [_check_points_outside_tesseroids] accepts for that collection. *)
Theorem tesseroid_gravity_checked (fuel : nat)
    (coordinates : ndarray * ndarray * ndarray) (tesseroids : array)
    (density : density_arg) (field : string) (parallel radial : bool)
    (result : ndarray) :
  tesseroid_gravity fuel coordinates tesseroids density field parallel radial
    false = Ok result →
  ∃ tesseroids',
    _check_tesseroids tesseroids = Ok tesseroids'
    ∧ Forall valid_tesseroid tesseroids'
    ∧ _check_points_outside_tesseroids
        (ravel coordinates.1.1, ravel coordinates.1.2, ravel coordinates.2)
        tesseroids' = Ok ().
Proof.
  destruct coordinates as [[longitude latitude] radius].
  unfold tesseroid_gravity. intros Hrun.
  apply bind_Ok in Hrun as (kernel & _ & Hrun).
  apply bind_Ok in Hrun as (cast & _ & Hrun).
  apply bind_Ok in Hrun as (tesseroids1 & Hchecks & _).
  cbn [negb] in Hchecks.
  apply bind_Ok in Hchecks as (tesseroids' & Hcheck & Hpoints).
  apply bind_Ok in Hpoints as ([] & Hpoints & _).
  exists tesseroids'. split_and!; [exact Hcheck | | exact Hpoints].
  by eapply check_tesseroids_Ok_valid.
Qed.

End DriverShape.

Section DriverExamples.
Local Open Scope Qc_scope.
Local Existing Instance test_collaborators.

Lemma tesseroid_gravity_size_witness :
  ∃ result,
    tesseroid_gravity 0 test_coordinates [test_tesseroid]%list
      (DensityArray [Qc_of_Z 2670]%list) "g_z" true false false = Ok result
    ∧ length (ravel result) = size (shape result).
Proof.
  destruct (tesseroid_gravity 0 test_coordinates [test_tesseroid]%list
              (DensityArray [Qc_of_Z 2670]%list) "g_z" true false false)
    as [result|e] eqn:Hrun.
  - exists result. split; [reflexivity |].
    exact (tesseroid_gravity_size _ _ _ _ _ _ _ _ _ Hrun).
  - apply (f_equal (λ r, match r with Ok _ => true | Raise _ => false end))
      in Hrun.
    vm_compute in Hrun. discriminate Hrun.
Defined.

Lemma tesseroid_gravity_field_witness :
  tesseroid_gravity 0 test_coordinates [test_tesseroid]%list
    (DensityArray [Qc_of_Z 2670]%list) "g_x" true false false
  = Raise (FieldNotRecognized "g_x").
Proof.
  apply tesseroid_gravity_field; intros Heq; discriminate Heq.
Defined.

Lemma tesseroid_gravity_checked_witness :
  ∃ result tesseroids',
    tesseroid_gravity 0 test_coordinates [test_tesseroid]%list
      (DensityArray [Qc_of_Z 2670]%list) "g_z" true false false = Ok result
    ∧ _check_tesseroids [test_tesseroid]%list = Ok tesseroids'
    ∧ Forall valid_tesseroid tesseroids'.
Proof.
  destruct (tesseroid_gravity 0 test_coordinates [test_tesseroid]%list
              (DensityArray [Qc_of_Z 2670]%list) "g_z" true false false)
    as [result|e] eqn:Hrun.
  - destruct (tesseroid_gravity_checked _ _ _ _ _ _ _ _ Hrun)
      as (tesseroids' & Hcheck & Hvalid & _).
    exists result, tesseroids'.
    split; [reflexivity | split; [exact Hcheck | exact Hvalid]].
  - apply (f_equal (λ r, match r with Ok _ => true | Raise _ => false end))
      in Hrun.
    vm_compute in Hrun. discriminate Hrun.
Defined.

End DriverExamples.
